(** * jsonrpcserver: the asynchronous dispatcher

    A shallow embedding of [jsonrpcserver/async_dispatcher.py] and the
    properties of its dispatch pipeline: [call], [safe_call],
    [call_requests], [dispatch_pure] and [dispatch].

    Coroutines are resumptions over an explicit state; Python's
    [try]/[except]/[finally] and [return] are combinators on statement
    completions, so that each embedded function reads like its source. *)

From Stdlib Require Import ZArith.
From stdpp Require Import gmap strings list.

Set Default Proof Using "Type".
#[local] Set Warnings "-register-all".

(** ** JSON values

    What [json.loads] returns and what handlers receive and return.
    Numbers are the integers ([float] values are not needed by the
    dispatcher, which only passes values along). *)

Inductive json : Type :=
| JNull
| JBool (b : bool)
| JNumber (z : Z)
| JString (s : string)
| JArray (items : list json)
| JObject (members : list (string * json)).

(** ** Python exception classes

    A class is its name and its bases, each with its own bases: a class
    may have several ([class Both(KeyError, TypeError)]), and
    [BaseException] has none. *)

Inductive pyclass : Type :=
| Class (name : string) (bases : list pyclass).

(** Induction on a class, with the hypothesis for all its bases. *)
Fixpoint pyclass_induction (P : pyclass → Prop)
    (HClass : ∀ name bases, Forall P bases → P (Class name bases))
    (c : pyclass) : P c :=
  match c with
  | Class name bases =>
      HClass name bases
        ((fix go (l : list pyclass) : Forall P l :=
            match l with
            | [] => List.Forall_nil P
            | b :: l' =>
                List.Forall_cons P b l' (pyclass_induction P HClass b) (go l')
            end) bases)
  end.

(** The same class: the same name and the same bases. *)
Fixpoint pyclass_eqb (c d : pyclass) : bool :=
  match c, d with
  | Class n bs, Class m ds =>
      String.eqb n m
      && (fix go (l1 l2 : list pyclass) : bool :=
            match l1, l2 with
            | [], [] => true
            | x :: l1', y :: l2' => pyclass_eqb x y && go l1' l2'
            | _, _ => false
            end) bs ds
  end.

Definition BaseException : pyclass := Class "BaseException" [].
(** [class name(base)] *)
Definition Subclass (name : string) (base : pyclass) : pyclass :=
  Class name [base].

Definition Exception : pyclass := Subclass "Exception" BaseException.
Definition LookupError : pyclass := Subclass "LookupError" Exception.
Definition KeyError : pyclass := Subclass "KeyError" LookupError.
Definition TypeError : pyclass := Subclass "TypeError" Exception.
Definition ValueError : pyclass := Subclass "ValueError" Exception.
Definition SystemExit : pyclass := Subclass "SystemExit" BaseException.
(** [json.JSONDecodeError] and [jsonschema.ValidationError]. *)
Definition JSONDecodeError : pyclass := Subclass "JSONDecodeError" ValueError.
Definition ValidationError : pyclass :=
  Subclass "ValidationError" (Subclass "_Error" Exception).

(** [issubclass c d]: [d] is [c], or a base of [c], or a base of one of
    those. *)
Fixpoint issubclass (c d : pyclass) : bool :=
  pyclass_eqb c d
  || match c with
     | Class _ bases => existsb (λ base, issubclass base d) bases
     end.

(** The class has single inheritance throughout: one base, which has
    one base, up to [BaseException]. *)
Fixpoint linear (c : pyclass) : bool :=
  match c with
  | Class _ [] => true
  | Class _ [base] => linear base
  | Class _ _ => false
  end.

(** An exception object: its class and what [str(exc)] gives. *)
Record exn : Type := Exn { exc_type : pyclass; exc_str : string }.

(** [isinstance(exc, cls)], the test an [except cls] clause makes. *)
Definition isinstance (exc : exn) (cls : pyclass) : bool :=
  issubclass (exc_type exc) cls.

(** ** Results of expressions and of statements *)

(** An expression evaluates to a value or raises. *)
Inductive outcome (A : Type) : Type :=
| Returns (a : A)
| Raises (e : exn).
Arguments Returns {A} a.
Arguments Raises {A} e.

(** A statement completes normally (binding a local of type [L]), or by
    [return r], or by an exception. *)
Inductive completion (L R : Type) : Type :=
| Normal (l : L)
| Return (r : R)
| Raise (e : exn).
Arguments Normal {L R} l.
Arguments Return {L R} r.
Arguments Raise {L R} e.

(** ** Coroutines

    A coroutine, driven on a state, runs up to its next suspension point:
    it is then either done or pending, and a pending one is resumed by the
    event loop on the state of that later moment. *)

Section Coroutines.
Context {S : Type}.

Inductive step (X : Type) : Type :=
| Done (x : X)
| Pending (resume : S → S * step X).

Definition coro (X : Type) : Type := S → S * step X.
End Coroutines.
Arguments step S X : clear implicits.
Arguments coro S X : clear implicits.
Arguments Done {S X} x.
Arguments Pending {S X} resume.

Section CoroutineOps.
Context {S : Type}.
Implicit Types s : S.

(** Induction on a resumption: the hypothesis covers every state the
    task may be resumed on. *)
Fixpoint step_induction {X} (P : step S X → Prop)
    (HDone : ∀ x, P (Done x))
    (HPending : ∀ k, (∀ s, P (k s).2) → P (Pending k))
    (t : step S X) : P t :=
  match t with
  | Done x => HDone x
  | Pending k => HPending k (λ s, step_induction P HDone HPending (k s).2)
  end.

(** Resume until done: what [await] amounts to when nothing else runs
    in between. *)
Fixpoint run_step {X} (t : step S X) (s : S) : S * X :=
  match t with
  | Done x => (s, x)
  | Pending k => let (s', t') := k s in run_step t' s'
  end.

Definition run {X} (c : coro S X) (s : S) : S * X :=
  let (s', t) := c s in run_step t s'.

(** Continue with [f] where the task finishes, keeping its suspension
    points. *)
Fixpoint bind_step {X Y} (t : step S X) (f : X → coro S Y) (s : S)
    : S * step S Y :=
  match t with
  | Done x => f x s
  | Pending k =>
      (s, Pending (λ s1, let (s2, t') := k s1 in bind_step t' f s2))
  end.

Definition bind {X Y} (c : coro S X) (f : X → coro S Y) : coro S Y :=
  λ s, let (s', t) := c s in bind_step t f s'.

Definition pure {X} (x : X) : coro S X := λ s, (s, Done x).

(** A synchronous effect on the state. *)
Definition effect (f : S → S) : coro S unit := λ s, (f s, Done tt).

(** [asyncio.sleep(0)] and the like: give control back to the loop. *)
Definition suspend : coro S unit := λ s, (s, Pending (λ s', (s', Done tt))).

(** Every result the task can finish with, whatever the states it is
    resumed on, satisfies [P]. *)
Fixpoint step_all {X} (P : X → Prop) (t : step S X) : Prop :=
  match t with
  | Done x => P x
  | Pending k => ∀ s, step_all P (k s).2
  end.

Definition coro_all {X} (P : X → Prop) (c : coro S X) : Prop :=
  ∀ s, step_all P (c s).2.

(** [t] can finish with [x], on some sequence of states. *)
Inductive finishes {X} : step S X → X → Prop :=
| finishes_done x : finishes (Done x) x
| finishes_pending k s x : finishes (k s).2 x → finishes (Pending k) x.

Definition can_finish {X} (c : coro S X) (x : X) : Prop :=
  ∃ s, finishes (c s).2 x.

(** [t'] is [t] with [g] applied to its result: the same suspension
    points, the same effect on the state at each resumption. *)
Fixpoint maps {X Y} (g : X → Y) (t : step S X) (t' : step S Y) : Prop :=
  match t, t' with
  | Done x, Done y => y = g x
  | Pending k, Pending k' => ∀ s, (k' s).1 = (k s).1 ∧ maps g (k s).2 (k' s).2
  | _, _ => False
  end.

Definition coro_maps {X Y} (g : X → Y) (c : coro S X) (c' : coro S Y) : Prop :=
  ∀ s, (c' s).1 = (c s).1 ∧ maps g (c s).2 (c' s).2.

(** [f] continues without effect and without suspending, with [g] of
    its argument. *)
Definition continues_with {X Y} (f : X → coro S Y) (g : X → Y) : Prop :=
  ∀ x s, f x s = (s, Done (g x)).
End CoroutineOps.

(** ** Python statements

    The control flow of a function body: sequencing, [return],
    [try]/[except]/[finally], as Python defines them. *)

Section Statements.
Context {S : Type}.

Definition expr (A : Type) : Type := coro S (outcome A).
Definition stmt (L R : Type) : Type := coro S (completion L R).

(** Evaluate [e1], and [e2] on its value; an exception ends the
    evaluation. *)
Definition expr_bind {A B} (e1 : expr A) (e2 : A → expr B) : expr B :=
  bind e1 (λ o, match o with
                | Returns a => e2 a
                | Raises e => pure (Raises e)
                end).

Definition value {A} (a : A) : expr A := pure (Returns a).
Definition eval {A} (o : outcome A) : expr A := pure o.

(** [x = <expression>] *)
Definition assign {A R} (e : expr A) : stmt A R :=
  bind e (λ o, pure (match o with
                     | Returns a => Normal a
                     | Raises e => Raise e
                     end)).

(** [return <expression>] *)
Definition return_ {L R} (e : expr R) : stmt L R :=
  bind e (λ o, pure (match o with
                     | Returns r => Return r
                     | Raises e => Raise e
                     end)).

Definition pass {R} : stmt unit R := pure (Normal tt).

(** [s1] and then [s2]; [return] and exceptions leave the sequence. *)
Definition seq {L L' R} (s1 : stmt L R) (s2 : L → stmt L' R) : stmt L' R :=
  bind s1 (λ c, match c with
                | Normal l => s2 l
                | Return r => pure (Return r)
                | Raise e => pure (Raise e)
                end).

(** [if b: s] *)
Definition when {R} (b : bool) (s : stmt unit R) : stmt unit R :=
  if b then s else pass.

(** The [except] clauses of a [try], tried in order: the first whose
    class the exception is an instance of runs; with none, the
    exception goes on. *)
Fixpoint except_clauses {L R} (clauses : list (pyclass * (exn → stmt L R)))
    (exc : exn) : stmt L R :=
  match clauses with
  | [] => pure (Raise exc)
  | (cls, handler) :: rest =>
      if isinstance exc cls then handler exc else except_clauses rest exc
  end.

Definition try_except {L R} (body : stmt L R)
    (clauses : list (pyclass * (exn → stmt L R))) : stmt L R :=
  bind body (λ c, match c with
                  | Raise exc => except_clauses clauses exc
                  | _ => pure c
                  end).

(** [finally]: the block runs however the body completed; when it
    completes normally the body's completion stands, and its own
    [return] (or exception) replaces it, a pending exception
    included. *)
Definition try_finally {L R} (body : stmt L R) (final : stmt unit R)
    : stmt L R :=
  bind body (λ c,
    bind final (λ f, pure (match f with
                           | Normal _ => c
                           | Return r => Return r
                           | Raise e => Raise e
                           end))).

(** A function whose body always ends in [return] or an exception. *)
Definition def {R} (body : stmt Empty_set R) : expr R :=
  bind body (λ c, pure (match c with
                        | Normal l => match l with end
                        | Return r => Returns r
                        | Raise e => Raises e
                        end)).
End Statements.
Arguments expr S A : clear implicits.
Arguments stmt S L R : clear implicits.

Declare Scope py_scope.
Delimit Scope py_scope with py.
#[local] Notation "'let!' x ':=' e 'in' k" := (expr_bind e (λ x, k))
  (at level 10, x name, e at level 100, k at level 200,
   format "'[v' 'let!'  x  ':='  e  'in' '/' k ']'") : py_scope.
#[local] Notation "x '<-' s1 ';;' s2" := (seq s1 (λ x, s2))
  (at level 100, s1 at next level, right associativity,
   format "'[v' x  '<-'  s1  ';;' '/' s2 ']'") : py_scope.
#[local] Notation "s1 ';;' s2" := (seq s1 (λ _, s2))
  (at level 100, right associativity,
   format "'[v' s1  ';;' '/' s2 ']'") : py_scope.
#[local] Notation "'try' b 'except' cs 'finally' f" := (try_finally (try_except b cs) f)
  (at level 100, b at level 99, cs at level 99, f at level 99) : py_scope.
#[local] Open Scope py_scope.

(** ** Requests, responses and the registry *)

(** Modelled from the spec: the [Request] class of [request.py], with the
    attributes the dispatcher reads. The [id] is a JSON value or absent
    ([None] here), and a request is a notification iff its [id] is
    absent. *)
Record Request : Type := {
  method : string;
  args : list json;
  kwargs : list (string * json);
  id : option json;
}.

Definition is_notification (request : Request) : bool :=
  match id request with
  | None => true
  | Some _ => false
  end.

(** The response classes of [response.py], as the dispatcher constructs
    them: one constructor per class, with the arguments of the call. *)
Inductive Response : Type :=
| SuccessResponse (result : json) (id : option json)
| MethodNotFoundResponse (id : option json) (data : string) (debug : bool)
| InvalidParamsResponse (id : option json) (data : string) (debug : bool)
| ExceptionResponse (exc : exn) (id : option json) (debug : bool)
| InvalidJSONResponse (data : string) (debug : bool)
| InvalidJSONRPCResponse (data : option string) (debug : bool)
| NotificationResponse
| BatchResponse (responses : list Response).

(** The [id] a response was constructed with, if it was given one. *)
Definition response_id (r : Response) : option (option json) :=
  match r with
  | SuccessResponse _ i
  | MethodNotFoundResponse i _ _
  | InvalidParamsResponse i _ _
  | ExceptionResponse _ i _ => Some i
  | _ => None
  end.

(** What [methods.items[name]] raises for a missing key. [str] of a
    [KeyError] is the [repr] of the key, written here with plain quotes;
    the dispatcher never reads it. *)
Definition key_error (key : string) : exn :=
  Exn KeyError ("'" +:+ key +:+ "'").

(** [d[key]] on a [dict]. *)
Definition getitem {V} (d : gmap string V) (key : string) : outcome V :=
  match d !! key with
  | Some v => Returns v
  | None => Raises (key_error key)
  end.

(** ** The state a dispatch runs on *)

(** Observations kept beside the program: which handler was called with
    what, that requests were built, and the calls to the logging
    functions of [dispatcher.py]. *)
Inductive event : Type :=
| HandlerCalled (name : string) (args : list json) (kwargs : list (string * json))
| RequestsCreated (deserialized : json)
| HandlersAdded
| HandlersRemoved
| RequestLogged (text : string) (trim_log_values : bool)
| ResponseLogged (text : string) (trim_log_values : bool).

Section Dispatcher.
(** Whatever the handlers read and write. *)
Context {W : Type}.

(** [world]: the handlers' state. [wakeups]: the order in which the
    event loop will find the suspended tasks of a [gather] ready,
    which the environment decides. [trace]: the observations so far. *)
Record State : Type := {
  world : W;
  wakeups : list nat;
  trace : list event;
}.

Definition set_world (w : W) (s : State) : State :=
  {| world := w; wakeups := wakeups s; trace := trace s |}.
Definition set_wakeups (ws : list nat) (s : State) : State :=
  {| world := world s; wakeups := ws; trace := trace s |}.
Definition log (ev : event) (s : State) : State :=
  {| world := world s; wakeups := wakeups s; trace := trace s ++ [ev] |}.

(** A handler acts on the world only. *)
Fixpoint lift_step {X} (t : step W X) : step State X :=
  match t with
  | Done x => Done x
  | Pending k =>
      Pending (λ s, let (w', t') := k (world s) in (set_world w' s, lift_step t'))
  end.

Definition lift {X} (c : coro W X) : coro State X :=
  λ s, let (w', t) := c (world s) in (set_world w' s, lift_step t).

(** A registered method, an [async def]: its name, what [validate_args]
    says of arguments for it ([None] when it accepts them, the message
    of its [TypeError] otherwise) and its body. *)
Record Method : Type := {
  m_name : string;
  m_bind : list json → list (string * json) → option string;
  m_body : list json → list (string * json) → expr W json;
}.

(** The registry, [methods.py]'s [Methods]: [items] maps names to
    methods. *)
Record Methods : Type := { items : gmap string Method }.

(** Modelled from the spec: [validate_args] of [methods.py], the
    argument binder. It binds the arguments to the method's signature
    and gives the method back; a mismatch raises [TypeError] with the
    description of the mismatch. *)
Definition validate_args (func : Method) (args : list json)
    (kwargs : list (string * json)) : outcome Method :=
  match m_bind func args kwargs with
  | None => Returns func
  | Some msg => Raises (Exn TypeError msg)
  end.

(** Calling [func] on the arguments and awaiting it: the body of the
    handler runs. *)
Definition invoke (func : Method) (args : list json)
    (kwargs : list (string * json)) : expr State json :=
  bind (effect (log (HandlerCalled (m_name func) args kwargs)))
       (λ _, lift (m_body func args kwargs)).

(** The keywords of a call have one named [method], the name of the
    first parameter of [call]. *)
Definition names_method (kwargs : list (string * json)) : bool :=
  existsb (λ kw, String.eqb kw.1 "method") kwargs.

(** What Python raises when a call of [call] gives its parameter
    [method] a second value by keyword. *)
Definition multiple_values : exn :=
  Exn TypeError "call() got multiple values for argument 'method'".

(** [async def call(method, *args, **kwargs)], called with a method,
    positional arguments and keywords: the keywords go to [kwargs],
    except that one named [method] collides with the first parameter
    and the call itself raises [TypeError], the body not being entered. *)
Definition call (method : Method) (args : list json)
    (kwargs : list (string * json)) : expr State json :=
  if names_method kwargs then eval (Raises multiple_values)
  else
    def (return_ (let! func := eval (validate_args method args kwargs) in
                  invoke func args kwargs)).

(** [async def safe_call(request, methods, *, debug)] *)
Definition safe_call (request : Request) (methods : Methods) (debug : bool)
    : expr State Response :=
  def (
    result <-
      (try
         assign (let! m := eval (getitem (items methods) (method request)) in
                 call m (args request) (kwargs request))
       except [
         (KeyError, λ _,
            return_ (value (MethodNotFoundResponse (id request) (method request) debug)));
         (TypeError, λ exc,
            return_ (value (InvalidParamsResponse (id request) (exc_str exc) debug)));
         (Exception, λ exc,
            return_ (value (ExceptionResponse exc (id request) debug)))
       ]
       finally
         when (is_notification request) (return_ (value NotificationResponse))) ;;
    return_ (value (SuccessResponse result (id request)))).

(** The expression [safe_call] awaits:
    [call(methods.items[request.method], *request.args, **request.kwargs)]. *)
Definition awaited_call (request : Request) (methods : Methods)
    : expr State json :=
  let! m := eval (getitem (items methods) (method request)) in
  call m (args request) (kwargs request).

(** *** [asyncio.gather]

    The awaitables become tasks, which start in the order given; the
    suspended ones are resumed in the order the event loop finds them
    ready ([wakeups], then in order of position when it says nothing
    more). The caller goes on when all are done, with their results in
    the order of the awaitables, or as soon as one has raised, with
    that exception. A task not yet started is a task to resume from its
    beginning. *)

(** The first exception among the tasks that are done. *)
Fixpoint failed {A} (pool : list (step State (outcome A))) : option exn :=
  match pool with
  | [] => None
  | Done (Raises e) :: _ => Some e
  | _ :: rest => failed rest
  end.

(** Each task runs up to its first suspension, in the order given. A
    task that raises an exception outside [Exception] ([SystemExit],
    [KeyboardInterrupt]) stops the event loop there: the tasks after it
    are never started. *)
Fixpoint start_all {A} (aws : list (expr State A)) (s : State)
    : State * list (step State (outcome A)) :=
  match aws with
  | [] => (s, [])
  | c :: rest =>
      let (s1, t) := c s in
      let stops := match t with
                   | Done (Raises e) => negb (isinstance e Exception)
                   | _ => false
                   end in
      if stops then (s1, t :: map Pending rest)
      else let (s2, pool) := start_all rest s1 in (s2, t :: pool)
  end.

(** The loop resumes the task at position [i] for each [i] of [ws] that
    names a suspended task, until a task has raised. *)
Fixpoint resume_all {A} (ws : list nat) (pool : list (step State (outcome A)))
    (s : State) : State * list (step State (outcome A)) :=
  match ws with
  | [] => (s, pool)
  | i :: ws' =>
      match failed pool with
      | Some _ => (s, pool)
      | None =>
          match pool !! i with
          | Some (Pending k) =>
              let (s', t') := k s in resume_all ws' (<[i:=t']> pool) s'
          | _ => resume_all ws' pool s
          end
      end
  end.

(** The tasks still suspended run to their end, in order of position;
    the results are collected in that order, up to the first
    exception. *)
Fixpoint drain {A} (pool : list (step State (outcome A))) (s : State)
    : State * outcome (list A) :=
  match pool with
  | [] => (s, Returns [])
  | t :: rest =>
      let (s1, o) := run_step t s in
      match o with
      | Raises e => (s1, Raises e)
      | Returns a =>
          let (s2, r) := drain rest s1 in
          (s2, match r with
               | Returns l => Returns (a :: l)
               | Raises e => Raises e
               end)
      end
  end.

Definition gather {A} (aws : list (expr State A)) : expr State (list A) :=
  λ s,
    let ws := wakeups s in
    let (s1, pool) := start_all aws (set_wakeups [] s) in
    let (s2, pool') := resume_all ws pool s1 in
    match failed pool' with
    | Some e => (s2, Done (Raises e))
    | None => let (s3, r) := drain pool' s2 in (s3, Done r)
    end.

(** [async def call_requests(requests, methods, debug)]: [requests] is
    one [Request] or an iterable of them. *)
Definition call_requests (requests : Request + list Request)
    (methods : Methods) (debug : bool) : expr State Response :=
  def (
    match requests with
    | inr requests =>
        let responses := map (λ r, safe_call r methods debug) requests in
        return_ (let! results := gather responses in
                 value (BatchResponse results))
    | inl request => return_ (safe_call request methods debug)
    end).

(** *** The pipeline *)

Section Pipeline.
(** The collaborators of [dispatch_pure] and [dispatch]: [json.loads],
    and from [dispatcher.py] the validator, its schema and the
    request builder; the process-wide registry of [methods.py];
    [str] of a response. *)
Context {Schema Ctx : Type}.
Variable deserialize : string → outcome json.
Variable validate : json → Schema → outcome json.
Variable schema : Schema.
Variable create_requests : json → Ctx → bool → Request + list Request.
Variable global_methods : Methods.
Variable response_str : Response → string.

(** The call of [create_requests], observed. *)
Definition created_requests (deserialized : json) (context : Ctx)
    (convert_camel_case : bool) : expr State (Request + list Request) :=
  bind (effect (log (RequestsCreated deserialized)))
       (λ _, value (create_requests deserialized context convert_camel_case)).

(** The logging functions: observers, whose results are not used. *)
Definition add_handlers : expr State unit :=
  bind (effect (log HandlersAdded)) value.
Definition remove_handlers : expr State unit :=
  bind (effect (log HandlersRemoved)) value.
Definition log_request (text : string) (trim_log_values : bool)
    : expr State unit :=
  bind (effect (log (RequestLogged text trim_log_values))) value.
Definition log_response (text : string) (trim_log_values : bool)
    : expr State unit :=
  bind (effect (log (ResponseLogged text trim_log_values))) value.

(** [async def dispatch_pure(request, methods, *, context,
    convert_camel_case, debug)] *)
Definition dispatch_pure (request : string) (methods : Methods)
    (context : Ctx) (convert_camel_case debug : bool)
    : expr State Response :=
  def (
    deserialized <-
      try_except
        (assign (let! parsed := eval (deserialize request) in
                 eval (validate parsed schema)))
        [ (JSONDecodeError, λ exc,
             return_ (value (InvalidJSONResponse (exc_str exc) debug)));
          (ValidationError, λ exc,
             return_ (value (InvalidJSONRPCResponse None debug))) ] ;;
    return_ (
      let! requests := created_requests deserialized context convert_camel_case in
      call_requests requests methods debug)).

(** [async def dispatch(request, methods=None, *, basic_logging,
    convert_camel_case, context, debug, trim_log_values)], the body
    under the [apply_config] decorator. *)
Definition dispatch (request : string) (methods : option Methods)
    (basic_logging convert_camel_case : bool) (context : Ctx)
    (debug trim_log_values : bool) : expr State Response :=
  def (
    (* Use the global methods object if no methods object was passed. *)
    let methods := match methods with
                   | None => global_methods
                   | Some methods => methods
                   end in
    when basic_logging (assign add_handlers) ;;
    assign (log_request request trim_log_values) ;;
    response <-
      assign (dispatch_pure request methods context convert_camel_case debug) ;;
    assign (log_response (response_str response) trim_log_values) ;;
    when basic_logging (assign remove_handlers) ;;
    return_ (value response)).
End Pipeline.
End Dispatcher.
Arguments State W : clear implicits.
Arguments Method W : clear implicits.
Arguments Methods W : clear implicits.

(** ** What [safe_call] makes of the outcome of the awaited call

    The [except] clauses in their order, then the [finally] clause, as a
    function of the outcome of [await call(...)]. *)
Definition classify (request : Request) (debug : bool) (o : outcome json)
    : outcome Response :=
  if is_notification request then Returns NotificationResponse
  else match o with
       | Returns result => Returns (SuccessResponse result (id request))
       | Raises exc =>
           if isinstance exc KeyError then
             Returns (MethodNotFoundResponse (id request) (method request) debug)
           else if isinstance exc TypeError then
             Returns (InvalidParamsResponse (id request) (exc_str exc) debug)
           else if isinstance exc Exception then
             Returns (ExceptionResponse exc (id request) debug)
           else Raises exc
       end.

(** The response answers the request: nothing but [NotificationResponse]
    for a notification, the request's [id] otherwise. *)
Definition answers (request : Request) (response : Response) : Prop :=
  if is_notification request then response = NotificationResponse
  else response_id response = Some (id request).

(** The exceptions a handler raises all derive from [Exception]. *)
Definition raises_only_Exception {S A} (c : expr S A) : Prop :=
  coro_all (λ o, ∀ exc, o = Raises exc → isinstance exc Exception = true) c.

(** Nothing the call for [request] can raise leaves [safe_call]: the
    request is a notification, or the exceptions its handler raises all
    derive from [Exception]. *)
Definition well_behaved {W} (methods : Methods W) (request : Request) : Prop :=
  is_notification request = true
  ∨ ∀ func, items methods !! method request = Some func →
      raises_only_Exception (m_body func (args request) (kwargs request)).


(** The handler call [safe_call] makes for [request]: one, when the
    method is found, no keyword is named [method] and the arguments
    bind, and none otherwise. *)
Definition handler_calls {W} (methods : Methods W) (request : Request)
    : list event :=
  match items methods !! method request with
  | Some func =>
      if names_method (kwargs request) then []
      else
        match m_bind func (args request) (kwargs request) with
        | None => [HandlerCalled (m_name func) (args request) (kwargs request)]
        | Some _ => []
        end
  | None => []
  end.

(** Resuming the task never touches the trace. *)
Fixpoint keeps_trace {W X} (t : step (State W) X) : Prop :=
  match t with
  | Done _ => True
  | Pending k => ∀ s, trace (k s).1 = trace s ∧ keeps_trace (k s).2
  end.


(** The responses [safe_call] constructs: every class but
    [BatchResponse], [InvalidJSONResponse] and [InvalidJSONRPCResponse]. *)
Definition single_response (response : Response) : bool :=
  match response with
  | SuccessResponse _ _
  | MethodNotFoundResponse _ _ _
  | InvalidParamsResponse _ _ _
  | ExceptionResponse _ _ _
  | NotificationResponse => true
  | _ => false
  end.


(** What [dispatch_pure] makes of an exception raised in its [try]
    block: the [except] clauses in their order. *)
Definition classify_input (debug : bool) (exc : exn) : outcome Response :=
  if isinstance exc JSONDecodeError then
    Returns (InvalidJSONResponse (exc_str exc) debug)
  else if isinstance exc ValidationError then
    Returns (InvalidJSONRPCResponse None debug)
  else Raises exc.

(** ** A sample registry

    Handlers acting on a journal, for the concrete instances below. *)

Module Sample.
Definition World : Type := list string.

Definition say (line : string) : coro World unit := effect (λ w, w ++ [line]).

(** [async def ping(): return "pong"] *)
Definition ping : Method World := {|
  m_name := "ping";
  m_bind := λ a kw, match a, kw with
                    | [], [] => None
                    | _, _ => Some "too many positional arguments"
                    end;
  m_body := λ _ _, bind (say "ping") (λ _, value (JString "pong"));
|}.

(** [async def add(x, y): return x + y] *)
Definition add : Method World := {|
  m_name := "add";
  m_bind := λ a kw, match a, kw with
                    | [_; _], [] => None
                    | _, _ => Some "missing a required argument"
                    end;
  m_body := λ a _, match a with
                   | [JNumber x; JNumber y] => value (JNumber (x + y))
                   | _ => pure (Raises (Exn TypeError "unsupported operand type"))
                   end;
|}.

(** A handler that suspends once, as on [await asyncio.sleep(...)]. *)
Definition slow (name : string) : Method World := {|
  m_name := name;
  m_bind := λ _ _, None;
  m_body := λ _ _,
    bind (say (name +:+ " starts")) (λ _,
    bind suspend (λ _,
    bind (say (name +:+ " ends")) (λ _, value (JString name))));
|}.

(** A handler whose body raises. *)
Definition failing (cls : pyclass) : Method World := {|
  m_name := "failing";
  m_bind := λ _ _, None;
  m_body := λ _ _, pure (Raises (Exn cls "failed"));
|}.

Definition registry : Methods World := {|
  items :=
    <["ping" := ping]> (<["add" := add]> (<["a" := slow "a"]> (<["b" := slow "b"]>
    (<["lookup" := failing KeyError]> (<["cast" := failing TypeError]>
    (<["parse" := failing ValueError]> (<["quit" := failing SystemExit]> ∅)))))))
|}.

Definition initial (ws : list nat) : State World :=
  {| world := []; wakeups := ws; trace := [] |}.

Definition request (name : string) (i : option json) : Request :=
  {| method := name; args := []; kwargs := []; id := i |}.

(** A stand-in for [json.loads] on three texts, for a validator that
    accepts objects only, and for a builder of one request. *)
Definition deserialize (text : string) : outcome json :=
  if decide (text = "[1") then
    Raises (Exn JSONDecodeError "Expecting ',' delimiter: line 1 column 3 (char 2)")
  else if decide (text = "3") then Returns (JNumber 3)
  else Returns (JObject [("method", JString text)]).

Definition validate (value : json) (schema : unit) : outcome json :=
  match value with
  | JObject _ => Returns value
  | _ => Raises (Exn ValidationError "3 is not valid under any of the given schemas")
  end.

Definition create_requests (deserialized : json) (context : unit)
    (convert_camel_case : bool) : Request + list Request :=
  match deserialized with
  | JObject [(_, JString name)] => inl (request name (Some (JNumber 1)))
  | _ => inr []
  end.


(** A stand-in for [str] of a response: the name of its class. *)
Definition response_str (response : Response) : string :=
  match response with
  | SuccessResponse _ _ => "SuccessResponse"
  | MethodNotFoundResponse _ _ _ => "MethodNotFoundResponse"
  | InvalidParamsResponse _ _ _ => "InvalidParamsResponse"
  | ExceptionResponse _ _ _ => "ExceptionResponse"
  | InvalidJSONResponse _ _ => "InvalidJSONResponse"
  | InvalidJSONRPCResponse _ _ => "InvalidJSONRPCResponse"
  | NotificationResponse => "NotificationResponse"
  | BatchResponse _ => "BatchResponse"
  end.


(** [async def echo(method): return method] *)
Definition echo : Method World := {|
  m_name := "echo";
  m_bind := λ a kw, match a, kw with
                    | [_], [] => None
                    | [], [(name, _)] =>
                        if String.eqb name "method" then None
                        else Some "got an unexpected keyword argument"
                    | _, _ => Some "missing a required argument: 'method'"
                    end;
  m_body := λ a kw, match a, kw with
                    | [x], _ | _, [(_, x)] => value x
                    | _, _ => value JNull
                    end;
|}.
Definition echo_registry : Methods World :=
  {| items := <["echo" := echo]> ∅ |}.

(** A parser that fails with an exception of another class, as
    [json.loads] does on input nested too deeply. *)
Definition RecursionError : pyclass :=
  Subclass "RecursionError" (Subclass "RuntimeError" Exception).
Definition deserialize_deep (text : string) : outcome json :=
  Raises (Exn RecursionError "maximum recursion depth exceeded").

(** A text of [n] opening brackets, and a stand-in for [json.loads] at
    the recursion limit of a thousand frames: on a text of opening
    brackets only, which is not valid JSON, it fails with
    [RecursionError] when the nesting is deeper than the limit allows
    and with [JSONDecodeError] otherwise. *)
Definition brackets (n : nat) : string :=
  String.concat "" (replicate n "[").
Fixpoint nesting (text : string) : nat :=
  match text with
  | String a rest =>
      if String.eqb (String a EmptyString) "[" then S (nesting rest) else 0
  | EmptyString => 0
  end.
Definition deserialize_nested (text : string) : outcome json :=
  if decide (text = brackets (nesting text)) then
    if decide (1000 < nesting text)%nat then
      Raises (Exn RecursionError
                "maximum recursion depth exceeded while decoding a JSON array from a unicode string")
    else Raises (Exn JSONDecodeError "Expecting value")
  else Returns (JString text).
End Sample.

(** ** Theory of coroutines *)

Section CoroutineTheory.
Context {S : Type}.
Implicit Types s : S.

Lemma run_step_finishes {X} (t : step S X) s : finishes t (run_step t s).2.
Proof.
  revert s. induction t as [x|k IH] using step_induction; intros s; simpl.
  - constructor.
  - specialize (IH s). destruct (k s) as [s' t'] eqn:Hk. simpl in IH.
    apply finishes_pending with s. rewrite Hk. apply IH.
Qed.

Lemma step_all_finishes {X} (P : X → Prop) (t : step S X) :
  step_all P t ↔ ∀ x, finishes t x → P x.
Proof.
  induction t as [x|k IH] using step_induction; simpl.
  - split.
    + intros HP y Hy. by inversion Hy; subst.
    + intros H. apply H. constructor.
  - split.
    + intros H x Hx. inversion Hx as [|k' s x' Hfin]; subst.
      by apply (proj1 (IH s) (H s)).
    + intros H s. apply IH. intros x Hx. apply H. by econstructor.
Qed.

Lemma run_step_all {X} (P : X → Prop) (t : step S X) s :
  step_all P t → P (run_step t s).2.
Proof. rewrite step_all_finishes. intros H. apply H, run_step_finishes. Qed.

Lemma run_all {X} (P : X → Prop) (c : coro S X) s :
  coro_all P c → P (run c s).2.
Proof.
  intros H. unfold run. specialize (H s). destruct (c s) as [s' t].
  by apply run_step_all.
Qed.

Lemma run_can_finish {X} (c : coro S X) s : can_finish c (run c s).2.
Proof.
  exists s. unfold run. destruct (c s) as [s' t]. apply run_step_finishes.
Qed.

Lemma coro_all_can_finish {X} (P : X → Prop) (c : coro S X) :
  coro_all P c ↔ ∀ x, can_finish c x → P x.
Proof.
  unfold coro_all, can_finish. split.
  - intros H x [s Hs]. by apply (proj1 (step_all_finishes P _) (H s)).
  - intros H s. apply step_all_finishes. intros x Hx. apply H. by exists s.
Qed.

(** Awaiting a task and its continuation: the task first, then the
    continuation on its result. *)
Lemma run_step_bind {X Y} (t : step S X) (f : X → coro S Y) s :
  run_step (bind_step t f s).2 (bind_step t f s).1
  = run (f (run_step t s).2) (run_step t s).1.
Proof.
  revert s. induction t as [x|k IH] using step_induction; intros s; simpl.
  - unfold run. by destruct (f x s).
  - specialize (IH s). destruct (k s) as [s1 t1]. simpl in IH.
    rewrite <-IH. by destruct (bind_step t1 f s1).
Qed.

Lemma run_bind {X Y} (c : coro S X) (f : X → coro S Y) s :
  run (bind c f) s = run (f (run c s).2) (run c s).1.
Proof.
  unfold run at 1 3 4, bind. destruct (c s) as [s1 t1].
  rewrite <-run_step_bind. by destruct (bind_step t1 f s1).
Qed.

(** *** Mapped tasks *)

Lemma maps_id {X} (t : step S X) : maps (λ x, x) t t.
Proof. induction t using step_induction; simpl; auto. Qed.

Lemma maps_ext {X Y} (g g' : X → Y) (t : step S X) (t' : step S Y) :
  (∀ x, g x = g' x) → maps g t t' → maps g' t t'.
Proof.
  intros Hg. revert t'.
  induction t as [x|k IH] using step_induction; intros [y|k']; simpl; try done.
  - intros ->. apply Hg.
  - intros H s. destruct (H s). split; [done|]. by apply IH.
Qed.

Lemma maps_compose {X Y Z} (g : X → Y) (h : Y → Z)
    (t : step S X) (t' : step S Y) (t'' : step S Z) :
  maps g t t' → maps h t' t'' → maps (λ x, h (g x)) t t''.
Proof.
  revert t' t''.
  induction t as [x|k IH] using step_induction;
    intros [y|k'] [z|k'']; simpl; try done.
  - by intros -> ->.
  - intros H1 H2 s. destruct (H1 s) as [E1 M1], (H2 s) as [E2 M2].
    split; [congruence|]. by eapply IH.
Qed.

Lemma maps_run_step {X Y} (g : X → Y) (t : step S X) (t' : step S Y) s :
  maps g t t' →
  run_step t' s = ((run_step t s).1, g (run_step t s).2).
Proof.
  revert t' s.
  induction t as [x|k IH] using step_induction; intros [y|k'] s; simpl; try done.
  - by intros ->.
  - intros H. destruct (H s) as [E M]. specialize (IH s).
    destruct (k s) as [s1 t1], (k' s) as [s1' t1']. simpl in *. subst.
    by apply IH.
Qed.

Lemma maps_finishes {X Y} (g : X → Y) (t : step S X) (t' : step S Y) y :
  maps g t t' → finishes t' y ↔ ∃ x, finishes t x ∧ y = g x.
Proof.
  revert t'.
  induction t as [x|k IH] using step_induction; intros [y'|k']; simpl; try done.
  - intros ->. split.
    + intros H. inversion H; subst. eexists. split; [constructor|done].
    + intros (x' & H & ->). inversion H; subst. constructor.
  - intros H. split.
    + intros Hf. inversion Hf as [|k0 s y0 Hfin]; subst.
      destruct (H s) as [_ M]. apply (IH s _ M) in Hfin as (x & Hx & ->).
      exists x. split; [by econstructor|done].
    + intros (x & Hx & ->). inversion Hx as [|k0 s x0 Hfin]; subst.
      destruct (H s) as [_ M]. apply finishes_pending with s.
      apply (IH s _ M). eauto.
Qed.

Lemma maps_step_all {X Y} (g : X → Y) (P : Y → Prop)
    (t : step S X) (t' : step S Y) :
  maps g t t' → step_all P t' ↔ step_all (λ x, P (g x)) t.
Proof.
  intros M. rewrite !step_all_finishes. split.
  - intros H x Hx. apply H. apply (maps_finishes _ _ _ _ M). eauto.
  - intros H y Hy. apply (maps_finishes _ _ _ _ M) in Hy as (x & Hx & ->). auto.
Qed.

(** A continuation without effect maps the task it follows. *)
Lemma bind_step_continues {X Y} (f : X → coro S Y) (g : X → Y)
    (t : step S X) s :
  continues_with f g →
  (bind_step t f s).1 = s ∧ maps g t (bind_step t f s).2.
Proof.
  intros Hf. revert s.
  induction t as [x|k IH] using step_induction; intros s; simpl.
  - by rewrite Hf.
  - split; [done|]. intros s1. destruct (k s1) as [s2 t2] eqn:Hk.
    specialize (IH s1). rewrite Hk in IH. apply IH.
Qed.

Lemma coro_maps_id {X} (c : coro S X) : coro_maps (λ x, x) c c.
Proof. intros s. split; [done|apply maps_id]. Qed.

Lemma coro_maps_ext {X Y} (g g' : X → Y) (c : coro S X) (c' : coro S Y) :
  (∀ x, g x = g' x) → coro_maps g c c' → coro_maps g' c c'.
Proof. intros Hg H s. destruct (H s). split; [done|]. by eapply maps_ext. Qed.

Lemma coro_maps_bind {X Y Z} (g : X → Y) (f : Y → coro S Z) (h : Y → Z)
    (c : coro S X) (c' : coro S Y) :
  continues_with f h → coro_maps g c c' →
  coro_maps (λ x, h (g x)) c (bind c' f).
Proof.
  intros Hf H s. unfold bind. destruct (H s) as [E M].
  destruct (c s) as [s1 t1], (c' s) as [s1' t1']. simpl in *. subst.
  destruct (bind_step_continues f h t1' s1 Hf) as [E' M'].
  split; [done|]. by eapply maps_compose.
Qed.

Lemma coro_maps_run {X Y} (g : X → Y) (c : coro S X) (c' : coro S Y) s :
  coro_maps g c c' → run c' s = ((run c s).1, g (run c s).2).
Proof.
  intros H. unfold run. destruct (H s) as [E M].
  destruct (c s) as [s1 t1], (c' s) as [s1' t1']. simpl in *. subst.
  by apply maps_run_step.
Qed.

Lemma coro_maps_can_finish {X Y} (g : X → Y) (c : coro S X) (c' : coro S Y) y :
  coro_maps g c c' → can_finish c' y ↔ ∃ x, can_finish c x ∧ y = g x.
Proof.
  intros H. unfold can_finish. split.
  - intros [s Hs]. destruct (H s) as [_ M].
    apply (maps_finishes _ _ _ _ M) in Hs as (x & Hx & ->). eauto.
  - intros (x & [s Hs] & ->). exists s. destruct (H s) as [_ M].
    apply (maps_finishes _ _ _ _ M). eauto.
Qed.

Lemma coro_maps_all {X Y} (g : X → Y) (P : Y → Prop)
    (c : coro S X) (c' : coro S Y) :
  coro_maps g c c' → coro_all P c' ↔ coro_all (λ x, P (g x)) c.
Proof.
  intros H. unfold coro_all. split; intros HP s; destruct (H s) as [_ M];
    by apply (maps_step_all _ _ _ _ M).
Qed.

Lemma coro_maps_done {X Y} (g : X → Y) (c : coro S X) (c' : coro S Y) s s' x :
  coro_maps g c c' → c s = (s', Done x) → c' s = (s', Done (g x)).
Proof.
  intros H Hc. destruct (H s) as [E M]. rewrite Hc in E, M.
  destruct (c' s) as [s1 [y|k]]; simpl in *; [congruence|done].
Qed.

Lemma coro_maps_compose {X Y Z} (g : X → Y) (h : Y → Z)
    (c : coro S X) (c' : coro S Y) (c'' : coro S Z) :
  coro_maps g c c' → coro_maps h c' c'' → coro_maps (λ x, h (g x)) c c''.
Proof.
  intros H1 H2 s. destruct (H1 s) as [E1 M1], (H2 s) as [E2 M2].
  split; [congruence|]. by eapply maps_compose.
Qed.

Lemma coro_maps_pointwise {X} (c c' : coro S X) :
  (∀ s, c' s = c s) → coro_maps (λ x, x) c c'.
Proof. intros H s. rewrite H. split; [done|apply maps_id]. Qed.

(** The statements that only rename the outcome of an expression. *)
Lemma assign_maps {A R} (e : expr S A) :
  coro_maps (λ o, match o with
                  | Returns a => @Normal A R a
                  | Raises exc => Raise exc
                  end) e (assign e).
Proof.
  eapply coro_maps_ext;
    [|eapply coro_maps_bind; [by intros o s|apply coro_maps_id]].
  done.
Qed.

Lemma return_maps {L R} (e : expr S R) :
  coro_maps (λ o, match o with
                  | Returns r => @Return L R r
                  | Raises exc => Raise exc
                  end) e (return_ e).
Proof.
  eapply coro_maps_ext;
    [|eapply coro_maps_bind; [by intros o s|apply coro_maps_id]].
  done.
Qed.

Lemma def_return_maps {R} (e : expr S R) :
  coro_maps (λ o, o) e (def (return_ e)).
Proof.
  eapply coro_maps_ext;
    [|eapply coro_maps_bind;
       [by intros c s|apply (return_maps (L:=Empty_set))]].
  by intros [r|exc].
Qed.
End CoroutineTheory.

(** ** Exception classes *)

Lemma pyclass_eqb_eq c d : pyclass_eqb c d = true → c = d.
Proof.
  revert d. induction c as [n bs IH] using pyclass_induction.
  intros [m ds]. cbn [pyclass_eqb].
  intros [Hn Hb]%andb_prop. apply String.eqb_eq in Hn as ->. f_equal.
  revert ds Hb. induction IH as [|b bs Hb' _ IHl]; intros [|d ds]; try done.
  intros [H1 H2]%andb_prop. f_equal; auto.
Qed.

Lemma pyclass_eqb_refl c : pyclass_eqb c c = true.
Proof.
  induction c as [n bs IH] using pyclass_induction. cbn [pyclass_eqb].
  rewrite String.eqb_refl. simpl. induction IH as [|b bs Hb _ IHl]; [done|].
  by rewrite Hb, IHl.
Qed.

Lemma issubclass_refl c : issubclass c c = true.
Proof. destruct c. cbn [issubclass]. by rewrite pyclass_eqb_refl. Qed.


(** With single inheritance the bases of a class form a chain. *)
Lemma issubclass_chain c d1 d2 :
  linear c = true →
  issubclass c d1 = true → issubclass c d2 = true →
  issubclass d1 d2 = true ∨ issubclass d2 d1 = true.
Proof.
  induction c as [n bs IH] using pyclass_induction.
  destruct bs as [|b [|b' bs]]; cbn [linear issubclass existsb]; [| |done].
  - rewrite !orb_false_r. intros _ <-%pyclass_eqb_eq <-%pyclass_eqb_eq.
    left. apply issubclass_refl.
  - rewrite !orb_false_r. apply Forall_cons in IH as [IH _].
    intros Hl [H1|H1]%orb_prop [H2|H2]%orb_prop.
    + apply pyclass_eqb_eq in H1 as <-. apply pyclass_eqb_eq in H2 as <-.
      left. apply issubclass_refl.
    + apply pyclass_eqb_eq in H1 as <-. left.
      cbn [issubclass existsb]. by rewrite H2, !orb_true_r.
    + apply pyclass_eqb_eq in H2 as <-. right.
      cbn [issubclass existsb]. by rewrite H1, !orb_true_r.
    + by apply IH.
Qed.

Lemma linear_ValidationError_not_JSONDecodeError exc :
  linear (exc_type exc) = true →
  isinstance exc ValidationError = true →
  isinstance exc JSONDecodeError = false.
Proof.
  intros Hl H. destruct (isinstance exc JSONDecodeError) eqn:H'; [|done].
  by destruct (issubclass_chain _ _ _ Hl H H').
Qed.



(** ** Theory of the dispatcher *)

Section DispatcherTheory.
Context {W : Type}.
Implicit Types (s : State W) (methods : Methods W) (request : Request).

(** *** Handlers, lifted to the state of the dispatch *)

Lemma run_lift_step {X} (t : step W X) s :
  run_step (lift_step t) s
  = (set_world (run_step t (world s)).1 s, (run_step t (world s)).2).
Proof.
  revert s. induction t as [x|k IH] using step_induction; intros s; simpl.
  - by destruct s.
  - specialize (IH (world s)). destruct (k (world s)) as [w' t'].
    simpl in IH. by rewrite IH.
Qed.

Lemma run_lift {X} (c : coro W X) s :
  run (lift c) s = (set_world (run c (world s)).1 s, (run c (world s)).2).
Proof.
  unfold run, lift. destruct (c (world s)) as [w' t].
  by rewrite run_lift_step.
Qed.

Lemma lift_step_all {X} (P : X → Prop) (t : step W X) :
  step_all P t → step_all P (lift_step t).
Proof.
  induction t as [x|k IH] using step_induction; simpl; [done|].
  intros H s. specialize (IH (world s)). specialize (H (world s)).
  destruct (k (world s)) as [w' t']. by apply IH.
Qed.

Lemma lift_all {X} (P : X → Prop) (c : coro W X) :
  coro_all P c → coro_all P (lift c).
Proof.
  intros H s. unfold lift. specialize (H (world s)).
  destruct (c (world s)) as [w' t]. by apply lift_step_all.
Qed.

Lemma lift_step_finishes {X} (t : step W X) x :
  finishes (lift_step t) x → finishes t x.
Proof.
  induction t as [y|k IH] using step_induction; simpl.
  - intros H. inversion H; subst. constructor.
  - intros H. inversion H as [|k' s x' Hfin]; subst.
    apply finishes_pending with (world s). apply IH.
    by destruct (k (world s)).
Qed.

Lemma invoke_run (func : Method W) a kw s :
  run (invoke func a kw) s
  = (set_world (run (m_body func a kw) (world s)).1
       (log (HandlerCalled (m_name func) a kw) s),
     (run (m_body func a kw) (world s)).2).
Proof.
  change (run (invoke func a kw) s)
    with (run (lift (m_body func a kw)) (log (HandlerCalled (m_name func) a kw) s)).
  by rewrite run_lift.
Qed.

Lemma invoke_all (P : outcome json → Prop) (func : Method W) a kw :
  coro_all P (m_body func a kw) → coro_all P (invoke func a kw).
Proof.
  intros H s.
  change (invoke func a kw s)
    with (lift (m_body func a kw) (log (HandlerCalled (m_name func) a kw) s)).
  by apply lift_all.
Qed.

Lemma invoke_can_finish (func : Method W) a kw o :
  can_finish (invoke func a kw) o → can_finish (m_body func a kw) o.
Proof.
  intros [s H].
  change (invoke func a kw s)
    with (lift (m_body func a kw) (log (HandlerCalled (m_name func) a kw) s)) in H.
  exists (world s). unfold lift in H. simpl in H.
  destruct (m_body func a kw (world s)) as [w' t]. by apply lift_step_finishes.
Qed.

(** *** [call] and [safe_call] *)

Lemma call_multiple_values (func : Method W) a kw s :
  names_method kw = true →
  call func a kw s = (s, Done (Raises multiple_values)).
Proof. intros Hk. unfold call. by rewrite Hk. Qed.

Lemma call_binds (func : Method W) a kw :
  names_method kw = false →
  m_bind func a kw = None →
  coro_maps (λ o, o) (invoke func a kw) (call func a kw).
Proof.
  intros Hk Hb. unfold call. rewrite Hk.
  eapply coro_maps_ext; [|eapply coro_maps_compose].
  2: { apply coro_maps_pointwise with
         (c' := let! f := eval (validate_args func a kw) in invoke f a kw).
       intros s. unfold validate_args. by rewrite Hb. }
  2: apply def_return_maps.
  done.
Qed.

Lemma call_bind_fails (func : Method W) a kw msg s :
  names_method kw = false →
  m_bind func a kw = Some msg →
  call func a kw s = (s, Done (Raises (Exn TypeError msg))).
Proof.
  intros Hk Hb. unfold call, validate_args. by rewrite Hk, Hb.
Qed.

(** [safe_call] is the awaited call with its outcome classified. *)
Lemma safe_call_classifies request methods debug :
  coro_maps (classify request debug)
    (awaited_call request methods) (safe_call request methods debug).
Proof.
  unfold safe_call, awaited_call, def, seq, try_finally, try_except.
  eapply coro_maps_ext; [|eapply coro_maps_bind; [by intros c s|]].
  2: eapply (coro_maps_bind _ _
       (λ c, match c with
             | Normal result => Return (SuccessResponse result (id request))
             | Return r => Return r
             | Raise exc => Raise exc
             end)); [by intros [result|r|exc] s|].
  2: eapply (coro_maps_bind _ _
       (λ c, if is_notification request then Return NotificationResponse
             else c)).
  2: { intros c s. unfold when. by destruct (is_notification request). }
  2: eapply (coro_maps_bind _ _
       (λ c, match c with
             | Raise exc =>
                 if isinstance exc KeyError then
                   Return (MethodNotFoundResponse (id request) (method request) debug)
                 else if isinstance exc TypeError then
                   Return (InvalidParamsResponse (id request) (exc_str exc) debug)
                 else if isinstance exc Exception then
                   Return (ExceptionResponse exc (id request) debug)
                 else Raise exc
             | _ => c
             end)).
  2: { intros [result|r|exc] s; [done|done|].
       cbn [except_clauses]. by repeat case_match. }
  2: apply assign_maps.
  intros [result|exc]; unfold classify; cbn beta iota;
    destruct (is_notification request); try done.
  by destruct (isinstance exc KeyError), (isinstance exc TypeError),
    (isinstance exc Exception).
Qed.

Lemma awaited_call_not_found request methods s :
  items methods !! method request = None →
  awaited_call request methods s
  = (s, Done (Raises (key_error (method request)))).
Proof. intros H. unfold awaited_call, getitem. by rewrite H. Qed.

Lemma awaited_call_found request methods func :
  items methods !! method request = Some func →
  ∀ s, awaited_call request methods s
       = call func (args request) (kwargs request) s.
Proof. intros H s. unfold awaited_call, getitem. by rewrite H. Qed.

Lemma awaited_call_multiple_values request methods func s :
  items methods !! method request = Some func →
  names_method (kwargs request) = true →
  awaited_call request methods s = (s, Done (Raises multiple_values)).
Proof.
  intros H Hk. rewrite (awaited_call_found _ _ _ H).
  by apply call_multiple_values.
Qed.

Lemma awaited_call_bind_fails request methods func msg s :
  items methods !! method request = Some func →
  names_method (kwargs request) = false →
  m_bind func (args request) (kwargs request) = Some msg →
  awaited_call request methods s = (s, Done (Raises (Exn TypeError msg))).
Proof.
  intros H Hk Hb. rewrite (awaited_call_found _ _ _ H).
  by apply call_bind_fails.
Qed.

Lemma awaited_call_invokes request methods func :
  items methods !! method request = Some func →
  names_method (kwargs request) = false →
  m_bind func (args request) (kwargs request) = None →
  coro_maps (λ o, o) (invoke func (args request) (kwargs request))
    (awaited_call request methods).
Proof.
  intros H Hk Hb. eapply coro_maps_ext; [|eapply coro_maps_compose].
  2: by apply call_binds.
  2: apply coro_maps_pointwise, (awaited_call_found _ _ _ H).
  done.
Qed.

Lemma safe_call_not_found request methods debug s :
  items methods !! method request = None →
  safe_call request methods debug s
  = (s, Done (classify request debug (Raises (key_error (method request))))).
Proof.
  intros H. eapply coro_maps_done; [apply safe_call_classifies|].
  by apply awaited_call_not_found.
Qed.

Lemma safe_call_multiple_values request methods debug func s :
  items methods !! method request = Some func →
  names_method (kwargs request) = true →
  safe_call request methods debug s
  = (s, Done (classify request debug (Raises multiple_values))).
Proof.
  intros H Hk. eapply coro_maps_done; [apply safe_call_classifies|].
  by eapply awaited_call_multiple_values.
Qed.

Lemma safe_call_bind_fails request methods debug func msg s :
  items methods !! method request = Some func →
  names_method (kwargs request) = false →
  m_bind func (args request) (kwargs request) = Some msg →
  safe_call request methods debug s
  = (s, Done (classify request debug (Raises (Exn TypeError msg)))).
Proof.
  intros H Hk Hb. eapply coro_maps_done; [apply safe_call_classifies|].
  by eapply awaited_call_bind_fails.
Qed.

Lemma safe_call_invokes request methods debug func :
  items methods !! method request = Some func →
  names_method (kwargs request) = false →
  m_bind func (args request) (kwargs request) = None →
  coro_maps (classify request debug)
    (invoke func (args request) (kwargs request))
    (safe_call request methods debug).
Proof.
  intros H Hk Hb. eapply coro_maps_ext; [|eapply coro_maps_compose].
  2: by apply awaited_call_invokes.
  2: apply safe_call_classifies.
  done.
Qed.

(** Awaiting [safe_call] when the handler is called: the handler runs
    on the world, and its outcome is classified. *)
Lemma safe_call_run request methods debug func s :
  items methods !! method request = Some func →
  names_method (kwargs request) = false →
  m_bind func (args request) (kwargs request) = None →
  run (safe_call request methods debug) s
  = (set_world (run (m_body func (args request) (kwargs request)) (world s)).1
       (log (HandlerCalled (m_name func) (args request) (kwargs request)) s),
     classify request debug
       (run (m_body func (args request) (kwargs request)) (world s)).2).
Proof.
  intros H Hk Hb.
  rewrite (coro_maps_run _ _ _ s (safe_call_invokes _ _ debug _ H Hk Hb)).
  by rewrite invoke_run.
Qed.

Lemma step_all_impl {S X} (P Q : X → Prop) (t : step S X) :
  (∀ x, P x → Q x) → step_all P t → step_all Q t.
Proof. rewrite !step_all_finishes. naive_solver. Qed.

Lemma coro_all_impl {S X} (P Q : X → Prop) (c : coro S X) :
  (∀ x, P x → Q x) → coro_all P c → coro_all Q c.
Proof. intros H HP s. by eapply step_all_impl. Qed.

Lemma coro_all_true {S X} (P : X → Prop) (c : coro S X) :
  (∀ x, P x) → coro_all P c.
Proof.
  intros H. apply coro_all_can_finish. auto.
Qed.

(** What holds of every outcome of the awaited call, by the four ways
    it can go. *)
Lemma awaited_call_all (P : outcome json → Prop) request methods :
  (items methods !! method request = None →
   P (Raises (key_error (method request)))) →
  (∀ func, items methods !! method request = Some func →
     names_method (kwargs request) = true →
     P (Raises multiple_values)) →
  (∀ func msg, items methods !! method request = Some func →
     names_method (kwargs request) = false →
     m_bind func (args request) (kwargs request) = Some msg →
     P (Raises (Exn TypeError msg))) →
  (∀ func, items methods !! method request = Some func →
     names_method (kwargs request) = false →
     m_bind func (args request) (kwargs request) = None →
     coro_all P (m_body func (args request) (kwargs request))) →
  coro_all P (awaited_call request methods).
Proof.
  intros Hnone Hclash Hfail Hcall.
  destruct (items methods !! method request) as [func|] eqn:Hm.
  - destruct (names_method (kwargs request)) eqn:Hk.
    { intros s. rewrite (awaited_call_multiple_values _ _ _ _ Hm Hk).
      simpl. eauto. }
    destruct (m_bind func (args request) (kwargs request)) as [msg|] eqn:Hb.
    + intros s. rewrite (awaited_call_bind_fails _ _ _ _ _ Hm Hk Hb).
      simpl. eauto.
    + apply (coro_maps_all _ _ _ _ (awaited_call_invokes _ _ _ Hm Hk Hb)).
      apply invoke_all. auto.
  - intros s. rewrite (awaited_call_not_found _ _ _ Hm). simpl. auto.
Qed.

Lemma safe_call_all (P : outcome Response → Prop) request methods debug :
  coro_all (λ o, P (classify request debug o)) (awaited_call request methods) →
  coro_all P (safe_call request methods debug).
Proof. apply coro_maps_all, safe_call_classifies. Qed.

Lemma classify_notification request debug o :
  is_notification request = true →
  classify request debug o = Returns NotificationResponse.
Proof. intros H. unfold classify. by rewrite H. Qed.

Lemma classify_answers request debug o response :
  classify request debug o = Returns response → answers request response.
Proof.
  unfold classify, answers. destruct (is_notification request).
  - congruence.
  - destruct o as [result|exc]; [by intros [= <-]|].
    repeat case_match; by intros [= <-].
Qed.

Lemma classify_raises request debug o exc :
  classify request debug o = Raises exc →
  is_notification request = false ∧ o = Raises exc
  ∧ isinstance exc Exception = false.
Proof.
  unfold classify. destruct (is_notification request); [done|].
  destruct o as [result|exc']; [done|].
  repeat case_match; try done. by intros [= <-].
Qed.

Lemma classify_Exception request debug o :
  (∀ exc, o = Raises exc → isinstance exc Exception = true) →
  ∃ response, classify request debug o = Returns response.
Proof.
  intros H. destruct (classify request debug o) as [r|exc] eqn:E; [eauto|].
  apply classify_raises in E as (_ & -> & E). rewrite H in E; done.
Qed.
End DispatcherTheory.

(** ** The invoker: [safe_call] *)

(** C1. A notification is answered by [NotificationResponse] and nothing
    else, whatever happens to the call: the handler returns, the method is
    missing, the arguments do not bind, or the handler raises (any
    exception, those outside [Exception] included). This holds of every
    way the task can finish, in particular when it is awaited alone. *)
Theorem safe_call_notification {W} (request : Request) (methods : Methods W)
    (debug : bool) :
  is_notification request = true →
  coro_all (λ o, o = Returns NotificationResponse)
    (safe_call request methods debug)
  ∧ ∀ s, (run (safe_call request methods debug) s).2
         = Returns NotificationResponse.
Proof.
  intros Hn.
  assert (coro_all (λ o, o = Returns NotificationResponse)
            (safe_call request methods debug)) as H.
  { apply safe_call_all, coro_all_true. intros o.
    by apply classify_notification. }
  split; [done|]. intros s. by apply run_all.
Qed.

Lemma safe_call_notification_witness :
  is_notification (Sample.request "quit" None) = true
  ∧ (run (safe_call (Sample.request "quit" None) Sample.registry false)
       (Sample.initial [])).2 = Returns NotificationResponse.
Proof.
  split; [reflexivity|].
  apply (safe_call_notification (Sample.request "quit" None) Sample.registry false).
  reflexivity.
Defined.

(** C5. A request, not a notification, for a method that is not in the
    registry: [safe_call] is done at once with [MethodNotFoundResponse],
    its data the name of the method, and the state is as it was, so that
    no handler was called. *)
Theorem safe_call_method_not_found {W} (request : Request) (methods : Methods W)
    (debug : bool) (s : State W) :
  is_notification request = false →
  items methods !! method request = None →
  safe_call request methods debug s
  = (s, Done (Returns (MethodNotFoundResponse (id request) (method request) debug))).
Proof.
  intros Hn Hm. rewrite (safe_call_not_found _ _ _ _ Hm).
  unfold classify. by rewrite Hn.
Qed.

Lemma safe_call_method_not_found_witness :
  safe_call (Sample.request "missing" (Some (JNumber 2))) Sample.registry false
    (Sample.initial [])
  = (Sample.initial [],
     Done (Returns (MethodNotFoundResponse (Some (JNumber 2)) "missing" false))).
Proof.
  apply (safe_call_method_not_found
           (Sample.request "missing" (Some (JNumber 2))) Sample.registry false).
  - reflexivity.
  - vm_compute. reflexivity.
Defined.

(** C8. The response to a request that is not a notification carries the
    [id] of the request, the very value: every outcome of [safe_call] is a
    response with that [id], or an exception of the handler that does not
    derive from [Exception]. *)
Theorem safe_call_echoes_id {W} (request : Request) (methods : Methods W)
    (debug : bool) :
  is_notification request = false →
  coro_all (λ o, match o with
                 | Returns response => response_id response = Some (id request)
                 | Raises exc => isinstance exc Exception = false
                 end) (safe_call request methods debug)
  ∧ ∀ s, match (run (safe_call request methods debug) s).2 with
         | Returns response => response_id response = Some (id request)
         | Raises exc => isinstance exc Exception = false
         end.
Proof.
  intros Hn.
  assert (coro_all (λ o, match o with
                         | Returns response => response_id response = Some (id request)
                         | Raises exc => isinstance exc Exception = false
                         end) (safe_call request methods debug)) as H.
  { apply safe_call_all, coro_all_true. intros o.
    destruct (classify request debug o) as [response|exc] eqn:E.
    - apply classify_answers in E. unfold answers in E. by rewrite Hn in E.
    - by apply classify_raises in E as (_ & _ & E). }
  split; [done|]. intros s. by apply (run_all _ _ s) in H.
Qed.

Lemma safe_call_echoes_id_witness :
  (run (safe_call (Sample.request "ping" (Some (JString "1"))) Sample.registry false)
     (Sample.initial [])).2
  = Returns (SuccessResponse (JString "pong") (Some (JString "1")))
  ∧ response_id (SuccessResponse (JString "pong") (Some (JString "1")))
    = Some (Some (JString "1")).
Proof.
  split; [vm_compute; reflexivity|].
  pose proof (proj2 (safe_call_echoes_id
    (Sample.request "ping" (Some (JString "1"))) Sample.registry false eq_refl)
    (Sample.initial [])) as H.
  vm_compute in H. exact H.
Defined.







Lemma safe_call_responds {W} (request : Request) (methods : Methods W)
    (debug : bool) :
  well_behaved methods request →
  coro_all (λ o, ∃ response, o = Returns response)
    (safe_call request methods debug).
Proof.
  intros H. apply safe_call_all. destruct H as [Hn|Hexc].
  - apply coro_all_true. intros o. rewrite classify_notification; eauto.
  - apply awaited_call_all.
    + intros _. by apply classify_Exception; intros exc [= <-].
    + intros func _ _. by apply classify_Exception; intros exc [= <-].
    + intros func msg _ _ _. by apply classify_Exception; intros exc [= <-].
    + intros func Hm _ _. eapply coro_all_impl; [|by apply Hexc].
      intros o Ho. by apply classify_Exception.
Qed.

(** ** The batch coordinator: [gather] and [call_requests] *)

Section GatherTheory.
Context {W A : Type}.
Implicit Types (s : State W) (aws : list (expr (State W) A))
  (pool : list (step (State W) (outcome A))).

(** The task at each position comes from the awaitable at that
    position: what it can finish with, the awaitable can finish with. *)
#[local] Abbreviation descends aws pool :=
  (Forall2 (λ (c : expr (State W) A) (t : step (State W) (outcome A)),
              ∀ o, finishes t o → can_finish c o) aws pool).

Lemma not_started_descends aws : descends aws (map Pending aws).
Proof.
  induction aws as [|c aws IH]; simpl; constructor; [|done].
  intros o Ho. inversion Ho as [|k s o' Hfin]; subst. by exists s.
Qed.

Lemma start_all_descends aws s : descends aws (start_all aws s).2.
Proof.
  revert s. induction aws as [|c aws IH]; intros s; simpl; [constructor|].
  destruct (c s) as [s1 t] eqn:Hc. specialize (IH s1).
  destruct (start_all aws s1) as [s2 pool]. simpl in *.
  assert (∀ o, finishes t o → can_finish c o) as Ht.
  { intros o Ho. exists s. by rewrite Hc. }
  destruct (match t with
            | Done (Raises e) => negb (isinstance e Exception)
            | _ => false
            end); simpl.
  - constructor; [done|]. apply not_started_descends.
  - by constructor.
Qed.

Lemma resume_all_descends ws aws pool s :
  descends aws pool → descends aws (resume_all ws pool s).2.
Proof.
  revert pool s. induction ws as [|i ws IH]; intros pool s Hd; simpl; [done|].
  destruct (failed pool); [done|].
  destruct (pool !! i) as [[o|k]|] eqn:Hi; [by apply IH| |by apply IH].
  destruct (k s) as [s' t'] eqn:Hk. apply IH.
  destruct (Forall2_lookup_r _ _ _ _ _ Hd Hi) as (c & Hc & Hct).
  rewrite <-(list_insert_id aws i c) by done.
  apply Forall2_insert; [done|].
  intros o Ho. apply Hct. apply finishes_pending with s. by rewrite Hk.
Qed.

Lemma failed_descends aws pool exc :
  descends aws pool → failed pool = Some exc →
  ∃ c, c ∈ aws ∧ can_finish c (Raises exc).
Proof.
  induction 1 as [|c t aws pool Hct Hd IH]; simpl; [done|].
  intros Hf.
  assert (t = Done (Raises exc) ∨ failed pool = Some exc) as [->|Hf'].
  { destruct t as [[a|e]|k]; auto. left. congruence. }
  - exists c. split; [by left|]. apply Hct. constructor.
  - destruct (IH Hf') as (c' & Hin & Hc'). exists c'. split; [by right|done].
Qed.

Lemma drain_descends aws pool s :
  descends aws pool →
  match (drain pool s).2 with
  | Returns results =>
      Forall2 (λ c a, can_finish c (Returns a)) aws results
  | Raises exc => ∃ c, c ∈ aws ∧ can_finish c (Raises exc)
  end.
Proof.
  intros Hd. revert s.
  induction Hd as [|c t aws pool Hct Hd IH]; intros s; simpl; [constructor|].
  pose proof (run_step_finishes t s) as Hfin.
  destruct (run_step t s) as [s1 [a|exc]]; simpl in *.
  - specialize (IH s1). destruct (drain pool s1) as [s2 [results|exc]]; simpl in *.
    + constructor; [by apply Hct|done].
    + destruct IH as (c' & Hin & Hc'). exists c'. split; [by right|done].
  - exists c. split; [by left|by apply Hct].
Qed.

(** [gather] never suspends its caller in this model: it is done, with
    the results of the awaitables in their order, or with the exception
    one of them raised. *)
Lemma gather_spec aws s :
  ∃ s' r, gather aws s = (s', Done r)
    ∧ match r with
      | Returns results =>
          Forall2 (λ c a, can_finish c (Returns a)) aws results
      | Raises exc => ∃ c, c ∈ aws ∧ can_finish c (Raises exc)
      end.
Proof.
  unfold gather.
  pose proof (start_all_descends aws (set_wakeups [] s)) as H1.
  destruct (start_all aws (set_wakeups [] s)) as [s1 pool].
  pose proof (resume_all_descends (wakeups s) aws pool s1 H1) as H2.
  destruct (resume_all (wakeups s) pool s1) as [s2 pool']. simpl in *.
  destruct (failed pool') as [exc|] eqn:Hf.
  - exists s2, (Raises exc). split; [done|]. by eapply failed_descends.
  - pose proof (drain_descends aws pool' s2 H2) as H3.
    destruct (drain pool' s2) as [s3 r]. by exists s3, r.
Qed.
End GatherTheory.

Lemma call_requests_one {W} (request : Request) (methods : Methods W) debug :
  coro_maps (λ o, o) (safe_call request methods debug)
    (call_requests (inl request) methods debug).
Proof. apply def_return_maps. Qed.

Lemma call_requests_many {W} (requests : list Request) (methods : Methods W)
    debug (s s' : State W) r :
  gather (map (λ r, safe_call r methods debug) requests) s = (s', Done r) →
  call_requests (inr requests) methods debug s
  = (s', Done match r with
              | Returns results => Returns (BatchResponse results)
              | Raises exc => Raises exc
              end).
Proof.
  intros Hg.
  refine (coro_maps_done (λ o, o) _ (call_requests (inr requests) methods debug)
            s s' _ (def_return_maps _) _).
  unfold expr_bind, bind. rewrite Hg. by destruct r.
Qed.

Lemma safe_call_can_finish_answers {W} (request : Request) (methods : Methods W)
    debug response :
  can_finish (safe_call request methods debug) (Returns response) →
  answers request response.
Proof.
  intros H.
  apply (coro_maps_can_finish _ _ _ _ (safe_call_classifies _ _ _)) in H
    as (o & _ & H).
  by eapply classify_answers.
Qed.

(** C3. For a sequence of requests, [call_requests] ends with a
    [BatchResponse] that has one response for each request, at the
    position of the request: the response at each position is one that
    [safe_call] gives for the request at that position, and answers it.
    This holds on every state, so for every order in which the event loop
    wakes the handlers up and they complete. The other way for
    [call_requests] to end is with an exception that left one of the
    [safe_call]s, which does not happen when the requests are
    notifications or have handlers raising nothing outside [Exception]. *)
Theorem call_requests_batch_order {W} (requests : list Request)
    (methods : Methods W) (debug : bool) (s : State W) :
  ∃ s' o,
    call_requests (inr requests) methods debug s = (s', Done o)
    ∧ match o with
      | Returns response =>
          ∃ responses,
            response = BatchResponse responses
            ∧ length responses = length requests
            ∧ Forall2 (λ r x, can_finish (safe_call r methods debug) (Returns x))
                requests responses
            ∧ Forall2 answers requests responses
      | Raises exc =>
          ∃ r, r ∈ requests
               ∧ can_finish (safe_call r methods debug) (Raises exc)
      end
    ∧ ((∀ r, r ∈ requests → well_behaved methods r) →
       ∃ response, o = Returns response).
Proof.
  destruct (gather_spec (map (λ r, safe_call r methods debug) requests) s)
    as (s' & r & Hg & Hr).
  exists s'. eexists. split; [by apply call_requests_many|].
  destruct r as [results|exc].
  - split; [|eauto].
    exists results. apply Forall2_fmap_l in Hr.
    repeat split; [by rewrite <-(Forall2_length _ _ _ Hr)|done|].
    eapply Forall2_impl; [done|]. intros r x.
    apply safe_call_can_finish_answers.
  - destruct Hr as (c & Hin & Hc).
    apply list_elem_of_fmap in Hin as (r & -> & Hin).
    split; [eauto|]. intros H.
    apply (proj1 (coro_all_can_finish _ _)
             (safe_call_responds r methods debug (H r Hin))) in Hc
      as [response [=]].
Qed.

Lemma call_requests_batch_order_witness :
  let requests := [Sample.request "a" (Some (JNumber 1));
                   Sample.request "b" None] in
  ∃ responses,
    (run (call_requests (inr requests) Sample.registry false)
       (Sample.initial [1; 0])).2 = Returns (BatchResponse responses)
    ∧ length responses = 2
    ∧ Forall2 answers requests responses.
Proof.
  intros requests.
  destruct (call_requests_batch_order requests Sample.registry false
              (Sample.initial [1; 0])) as (s' & o & Heq & Hbatch & Hreturns).
  destruct Hreturns as [response ->].
  - intros r [->|[->|[]%elem_of_nil]%elem_of_cons]%elem_of_cons.
    + right. intros func Hm. vm_compute in Hm. injection Hm as <-.
      intros w. simpl. intros w'. simpl. intros exc. discriminate.
    + by left.
  - destruct Hbatch as (responses & -> & Hlen & _ & Hans).
    exists responses. unfold run. rewrite Heq. done.
Defined.

(** The batch of the spec: the handler of the second request completes
    before the handler of the first (the journal shows it), or after it,
    and the responses are in the order of the requests both times. *)
Lemma batch_order_independent_of_completion :
  let requests := [Sample.request "a" (Some (JNumber 1));
                   Sample.request "b" (Some (JNumber 2))] in
  let batch := BatchResponse [SuccessResponse (JString "a") (Some (JNumber 1));
                              SuccessResponse (JString "b") (Some (JNumber 2))] in
  let after ws :=
    run (call_requests (inr requests) Sample.registry false) (Sample.initial ws) in
  world (after [1; 0]).1 = ["a starts"; "b starts"; "b ends"; "a ends"]
  ∧ (after [1; 0]).2 = Returns batch
  ∧ world (after [0; 1]).1 = ["a starts"; "b starts"; "a ends"; "b ends"]
  ∧ (after [0; 1]).2 = Returns batch.
Proof. repeat split; vm_compute; reflexivity. Qed.

(** The examples of the spec, once the text is parsed: [ping] with an
    [id], [ping] as a notification, and the batch of [add] and a missing
    method. *)
Lemma spec_examples :
  let respond requests :=
    (run (call_requests requests Sample.registry false) (Sample.initial [])).2 in
  respond (inl (Sample.request "ping" (Some (JNumber 1))))
  = Returns (SuccessResponse (JString "pong") (Some (JNumber 1)))
  ∧ respond (inl (Sample.request "ping" None)) = Returns NotificationResponse
  ∧ respond (inr [ {| method := "add"; args := [JNumber 1; JNumber 2];
                      kwargs := []; id := Some (JNumber 1) |};
                   Sample.request "missing" (Some (JNumber 2)) ])
    = Returns (BatchResponse
                 [ SuccessResponse (JNumber 3) (Some (JNumber 1));
                   MethodNotFoundResponse (Some (JNumber 2)) "missing" false ]).
Proof. repeat split; vm_compute; reflexivity. Qed.


(** The [try] block of [dispatch_pure], given what [deserialize] does. *)
Ltac try_block Hd :=
  unfold dispatch_pure, def, seq, try_except, assign, expr_bind, bind;
  simpl; rewrite Hd; simpl.

(** ** The pipeline: [dispatch_pure] and [dispatch] *)

Section PipelineTheory.
Context {W Schema Ctx : Type}.
Variable deserialize : string → outcome json.
Variable validate : json → Schema → outcome json.
Variable schema : Schema.
Variable create_requests : json → Ctx → bool → Request + list Request.
Implicit Types (s : State W) (methods : Methods W) (context : Ctx).

(** On a text that parses and validates, [dispatch_pure] builds the
    requests and goes on as [call_requests]. *)
Lemma dispatch_pure_valid (text : string) methods context
    (convert_camel_case debug : bool) parsed deserialized :
  deserialize text = Returns parsed →
  validate parsed schema = Returns deserialized →
  coro_maps (λ o, o)
    (λ s, call_requests (create_requests deserialized context convert_camel_case)
            methods debug (log (RequestsCreated deserialized) s))
    (dispatch_pure deserialize validate schema create_requests
       text methods context convert_camel_case debug).
Proof.
  intros Hd Hv. eapply coro_maps_ext; [|eapply coro_maps_compose].
  3: { apply coro_maps_pointwise with
         (c := def (return_ (
                  let! requests :=
                    created_requests create_requests deserialized context
                      convert_camel_case in
                  call_requests requests methods debug))).
       intros s. unfold dispatch_pure, def, seq, try_except, assign, expr_bind, bind.
       simpl. rewrite Hd. simpl. by rewrite Hv. }
  2: { eapply coro_maps_compose; [|apply def_return_maps].
       by apply coro_maps_pointwise. }
  done.
Qed.

End PipelineTheory.




(** C6. On a text that is not valid JSON, for which [json.loads] raises
    [JSONDecodeError], [dispatch_pure] is done at once with
    [InvalidJSONResponse] (the parse error of the spec) carrying [str] of
    the parser's exception. It returns, it does not raise; and the state
    is as it was: no request was built and no handler called. *)
Theorem dispatch_pure_invalid_json {W Schema Ctx}
    (deserialize : string → outcome json)
    (validate : json → Schema → outcome json) (schema : Schema)
    (create_requests : json → Ctx → bool → Request + list Request)
    (text : string) (methods : Methods W) (context : Ctx)
    (convert_camel_case debug : bool) (exc : exn) (s : State W) :
  deserialize text = Raises exc →
  isinstance exc JSONDecodeError = true →
  dispatch_pure deserialize validate schema create_requests
    text methods context convert_camel_case debug s
  = (s, Done (Returns (InvalidJSONResponse (exc_str exc) debug))).
Proof.
  intros Hd He. try_block Hd.
  (* [except JSONDecodeError as exc] *)
  by rewrite He.
Qed.

Lemma dispatch_pure_invalid_json_witness :
  dispatch_pure Sample.deserialize Sample.validate tt Sample.create_requests
    "[1" Sample.registry tt false true (Sample.initial [])
  = (Sample.initial [],
     Done (Returns (InvalidJSONResponse
                      "Expecting ',' delimiter: line 1 column 3 (char 2)" true))).
Proof.
  apply (dispatch_pure_invalid_json Sample.deserialize Sample.validate tt
           Sample.create_requests "[1" Sample.registry tt false true
           (Exn JSONDecodeError "Expecting ',' delimiter: line 1 column 3 (char 2)")
           (Sample.initial []));
    vm_compute; reflexivity.
Defined.

(** C6 as stated fails on a text that is not valid JSON and for which
    the parser raises another exception than [JSONDecodeError]: on a
    thousand and one opening brackets [json.loads] runs into the
    recursion limit and raises [RecursionError], no clause of
    [dispatch_pure] catches it, and [dispatch_pure] raises, where the
    same parser on three opening brackets gives [InvalidJSONResponse]. *)
Lemma dispatch_pure_invalid_json_counterexample :
  Sample.deserialize_nested (Sample.brackets 1001)
  = Raises (Exn Sample.RecursionError
              "maximum recursion depth exceeded while decoding a JSON array from a unicode string")
  ∧ dispatch_pure Sample.deserialize_nested Sample.validate tt
      Sample.create_requests (Sample.brackets 1001) Sample.registry tt
      false false (Sample.initial [])
    = (Sample.initial [],
       Done (Raises (Exn Sample.RecursionError
                       "maximum recursion depth exceeded while decoding a JSON array from a unicode string")))
  ∧ dispatch_pure Sample.deserialize_nested Sample.validate tt
      Sample.create_requests (Sample.brackets 3) Sample.registry tt
      false false (Sample.initial [])
    = (Sample.initial [],
       Done (Returns (InvalidJSONResponse "Expecting value" false))).
Proof. repeat split; vm_compute; reflexivity. Qed.

(** C7. On a text that is valid JSON and fails the schema, for which
    [validate] raises [ValidationError], [dispatch_pure] is done at once
    with [InvalidJSONRPCResponse] (the invalid request of the spec), and
    the state is as it was: no request was built and no handler called.
    The exception is not a [JSONDecodeError], which is the clause before:
    that is so of [jsonschema]'s [ValidationError] and of every class
    with single inheritance that derives from it, and is assumed of a
    class with several bases. *)
Theorem dispatch_pure_invalid_jsonrpc {W Schema Ctx}
    (deserialize : string → outcome json)
    (validate : json → Schema → outcome json) (schema : Schema)
    (create_requests : json → Ctx → bool → Request + list Request)
    (text : string) (methods : Methods W) (context : Ctx)
    (convert_camel_case debug : bool) (parsed : json) (exc : exn)
    (s : State W) :
  deserialize text = Returns parsed →
  validate parsed schema = Raises exc →
  isinstance exc ValidationError = true →
  linear (exc_type exc) = true ∨ isinstance exc JSONDecodeError = false →
  dispatch_pure deserialize validate schema create_requests
    text methods context convert_camel_case debug s
  = (s, Done (Returns (InvalidJSONRPCResponse None debug))).
Proof.
  intros Hd Hv He Hj. try_block Hd. rewrite Hv. simpl.
  assert (isinstance exc JSONDecodeError = false) as ->.
  { destruct Hj as [Hl|Hj]; [|done].
    by apply linear_ValidationError_not_JSONDecodeError. }
  (* not [except JSONDecodeError], but [except ValidationError] *)
  by rewrite He.
Qed.

Lemma dispatch_pure_invalid_jsonrpc_witness :
  dispatch_pure Sample.deserialize Sample.validate tt Sample.create_requests
    "3" Sample.registry tt false false (Sample.initial [])
  = (Sample.initial [], Done (Returns (InvalidJSONRPCResponse None false))).
Proof.
  apply (dispatch_pure_invalid_jsonrpc Sample.deserialize Sample.validate tt
           Sample.create_requests "3" Sample.registry tt false false
           (JNumber 3)
           (Exn ValidationError "3 is not valid under any of the given schemas")
           (Sample.initial []));
    [reflexivity | reflexivity | reflexivity | left; reflexivity].
Defined.

Lemma dispatch_response {W Schema Ctx}
    (deserialize : string → outcome json)
    (validate : json → Schema → outcome json) (schema : Schema)
    (create_requests : json → Ctx → bool → Request + list Request)
    (global_methods : Methods W) (response_str : Response → string)
    (request : string) (methods : option (Methods W))
    (basic_logging convert_camel_case : bool)
    (context : Ctx) (debug trim_log_values : bool) (s : State W) :
  (run (dispatch deserialize validate schema create_requests global_methods
          response_str request methods
          basic_logging convert_camel_case context debug trim_log_values) s).2
  = (run (dispatch_pure deserialize validate schema create_requests request
            (default global_methods methods) context convert_camel_case debug)
       (log (RequestLogged request trim_log_values)
          (if basic_logging then log HandlersAdded s else s))).2.
Proof.
  unfold dispatch, def, seq, assign.
  destruct methods as [methods|], basic_logging; simpl;
    repeat (rewrite run_bind; simpl);
    match goal with
    | |- context [run (dispatch_pure ?d ?v ?sc ?cr ?r ?m ?c ?cc ?dbg) ?st] =>
        destruct (run (dispatch_pure d v sc cr r m c cc dbg) st)
          as [s1 [response|exc]]
    end; simpl; by repeat (rewrite run_bind; simpl).
Qed.

(** C10. [dispatch] without [methods], or with [None] for it, is
    [dispatch] with the process-wide registry [global_methods]: the same
    coroutine, hence the same response and the same effects, for every
    text and every setting of the options; and its response is the one
    [dispatch_pure] gives on [global_methods]. *)
Theorem dispatch_default_methods {W Schema Ctx}
    (deserialize : string → outcome json)
    (validate : json → Schema → outcome json) (schema : Schema)
    (create_requests : json → Ctx → bool → Request + list Request)
    (global_methods : Methods W) (response_str : Response → string)
    (request : string) (basic_logging convert_camel_case : bool)
    (context : Ctx) (debug trim_log_values : bool) :
  dispatch deserialize validate schema create_requests global_methods
    response_str request None
    basic_logging convert_camel_case context debug trim_log_values
  = dispatch deserialize validate schema create_requests global_methods
      response_str request (Some global_methods)
      basic_logging convert_camel_case context debug trim_log_values
  ∧ ∀ s : State W,
      (run (dispatch deserialize validate schema create_requests global_methods
              response_str request None
              basic_logging convert_camel_case context debug trim_log_values) s).2
      = (run (dispatch_pure deserialize validate schema create_requests request
                global_methods context convert_camel_case debug)
           (log (RequestLogged request trim_log_values)
              (if basic_logging then log HandlersAdded s else s))).2.
Proof.
  split.
  - (* [methods = global_methods if methods is None else methods] *)
    reflexivity.
  - intros s. by rewrite dispatch_response.
Qed.

(** ** Further properties of [call] and [safe_call] *)

(** X1. [call] on arguments that bind, none of them a keyword named
    [method], awaits the handler: the handler is called once, runs to its
    end on the world, and its outcome, a value or an exception, is the
    outcome of [call]. *)
Theorem call_awaits_handler {W} (func : Method W) (a : list json)
    (kw : list (string * json)) (s : State W) :
  names_method kw = false →
  m_bind func a kw = None →
  run (call func a kw) s
  = (set_world (run (m_body func a kw) (world s)).1
       (log (HandlerCalled (m_name func) a kw) s),
     (run (m_body func a kw) (world s)).2).
Proof.
  intros Hk Hb. rewrite (coro_maps_run _ _ _ s (call_binds _ _ _ Hk Hb)).
  by rewrite invoke_run.
Qed.

Lemma call_awaits_handler_witness :
  run (call Sample.add [JNumber 2; JNumber 3] []) (Sample.initial [])
  = ({| world := []; wakeups := [];
        trace := [HandlerCalled "add" [JNumber 2; JNumber 3] []] |},
     Returns (JNumber 5)).
Proof.
  apply (call_awaits_handler Sample.add [JNumber 2; JNumber 3] []
           (Sample.initial [])); reflexivity.
Defined.

(** X2. A request whose method is found, with no keyword named [method],
    and whose arguments do not bind: [safe_call] is done at once, the state as it was and no handler
    called, with [InvalidParamsResponse] carrying the [id] of the request
    and the description of the mismatch, or with [NotificationResponse]
    for a notification. *)
Theorem safe_call_invalid_params {W} (request : Request) (methods : Methods W)
    (debug : bool) (func : Method W) (msg : string) (s : State W) :
  items methods !! method request = Some func →
  names_method (kwargs request) = false →
  m_bind func (args request) (kwargs request) = Some msg →
  safe_call request methods debug s
  = (s, Done (Returns (if is_notification request then NotificationResponse
                       else InvalidParamsResponse (id request) msg debug))).
Proof.
  intros Hm Hk Hb. rewrite (safe_call_bind_fails _ _ _ _ _ _ Hm Hk Hb).
  unfold classify. by destruct (is_notification request).
Qed.

Lemma safe_call_invalid_params_witness :
  safe_call {| method := "ping"; args := [JNull]; kwargs := [];
               id := Some (JString "7") |} Sample.registry true
    (Sample.initial [])
  = (Sample.initial [],
     Done (Returns (InvalidParamsResponse (Some (JString "7"))
                      "too many positional arguments" true))).
Proof.
  apply (safe_call_invalid_params
           {| method := "ping"; args := [JNull]; kwargs := [];
              id := Some (JString "7") |} Sample.registry true Sample.ping
           "too many positional arguments" (Sample.initial []));
    vm_compute; reflexivity.
Defined.

(** X3. A request with an [id] and no keyword named [method] whose
    handler returns a value is answered by [SuccessResponse] with that
    value and the [id]; the handler was called once, with the arguments
    of the request, and its effect on the world stays. *)
Theorem safe_call_success {W} (request : Request) (methods : Methods W)
    (debug : bool) (func : Method W) (s : State W) (w' : W) (result : json) :
  is_notification request = false →
  items methods !! method request = Some func →
  names_method (kwargs request) = false →
  m_bind func (args request) (kwargs request) = None →
  run (m_body func (args request) (kwargs request)) (world s)
  = (w', Returns result) →
  run (safe_call request methods debug) s
  = (set_world w'
       (log (HandlerCalled (m_name func) (args request) (kwargs request)) s),
     Returns (SuccessResponse result (id request))).
Proof.
  intros Hn Hm Hk Hb Hrun. rewrite (safe_call_run _ _ _ _ _ Hm Hk Hb), Hrun.
  unfold classify. by rewrite Hn.
Qed.

Lemma safe_call_success_witness :
  run (safe_call {| method := "add"; args := [JNumber 1; JNumber 2];
                    kwargs := []; id := Some (JNumber 1) |}
         Sample.registry false) (Sample.initial [])
  = ({| world := []; wakeups := [];
        trace := [HandlerCalled "add" [JNumber 1; JNumber 2] []] |},
     Returns (SuccessResponse (JNumber 3) (Some (JNumber 1)))).
Proof.
  apply (safe_call_success
           {| method := "add"; args := [JNumber 1; JNumber 2];
              kwargs := []; id := Some (JNumber 1) |}
           Sample.registry false Sample.add (Sample.initial []) [] (JNumber 3));
    vm_compute; reflexivity.
Defined.

(** X4. A notification does not stop its handler from running: when the
    method is found, no keyword is named [method] and the arguments bind,
    the handler is called and runs to its end, its effect on the world
    stays, whatever it returns or raises, and only the response is
    replaced. *)
Theorem safe_call_notification_runs_handler {W} (request : Request)
    (methods : Methods W) (debug : bool) (func : Method W) (s : State W) :
  is_notification request = true →
  items methods !! method request = Some func →
  names_method (kwargs request) = false →
  m_bind func (args request) (kwargs request) = None →
  run (safe_call request methods debug) s
  = (set_world (run (m_body func (args request) (kwargs request)) (world s)).1
       (log (HandlerCalled (m_name func) (args request) (kwargs request)) s),
     Returns NotificationResponse).
Proof.
  intros Hn Hm Hk Hb. rewrite (safe_call_run _ _ _ _ _ Hm Hk Hb).
  by rewrite classify_notification.
Qed.

Lemma safe_call_notification_runs_handler_witness :
  run (safe_call (Sample.request "ping" None) Sample.registry false)
    (Sample.initial [])
  = ({| world := ["ping"]; wakeups := [];
        trace := [HandlerCalled "ping" [] []] |},
     Returns NotificationResponse).
Proof.
  apply (safe_call_notification_runs_handler (Sample.request "ping" None)
           Sample.registry false Sample.ping (Sample.initial []));
    vm_compute; reflexivity.
Defined.

Section TraceTheory.
Context {W : Type}.
Implicit Types (s : State W) (methods : Methods W) (request : Request).

Lemma lift_step_keeps_trace {X} (t : step W X) : keeps_trace (lift_step t).
Proof.
  induction t as [x|k IH] using step_induction; simpl; [done|].
  intros s. specialize (IH (world s)). by destruct (k (world s)).
Qed.

Lemma maps_keeps_trace {X Y} (g : X → Y) (t : step (State W) X)
    (t' : step (State W) Y) :
  maps g t t' → keeps_trace t → keeps_trace t'.
Proof.
  revert t'. induction t as [x|k IH] using step_induction;
    intros [y|k']; simpl; try done.
  intros Hm Hk s. destruct (Hm s) as [E M], (Hk s) as [Ht Hk'].
  split; [congruence|]. by eapply IH.
Qed.

Lemma run_step_keeps_trace {X} (t : step (State W) X) s :
  keeps_trace t → trace (run_step t s).1 = trace s.
Proof.
  revert s. induction t as [x|k IH] using step_induction; intros s; simpl;
    [done|].
  intros Hk. destruct (Hk s) as [Ht Hk']. specialize (IH s).
  destruct (k s) as [s1 t1]. simpl in *. rewrite IH; done.
Qed.

(** Starting [safe_call] makes the handler call, if there is one; what
    is left of the task is the handler, which has no access to the
    trace. *)
Lemma safe_call_start request methods debug s :
  trace (safe_call request methods debug s).1
  = trace s ++ handler_calls methods request
  ∧ keeps_trace (safe_call request methods debug s).2.
Proof.
  unfold handler_calls.
  destruct (items methods !! method request) as [func|] eqn:Hm.
  - destruct (names_method (kwargs request)) eqn:Hk.
    { rewrite (safe_call_multiple_values _ _ debug _ s Hm Hk). simpl.
      by rewrite app_nil_r. }
    destruct (m_bind func (args request) (kwargs request)) as [msg|] eqn:Hb.
    + rewrite (safe_call_bind_fails _ _ debug _ _ s Hm Hk Hb). simpl.
      by rewrite app_nil_r.
    + destruct (safe_call_invokes _ _ debug _ Hm Hk Hb s) as [E M].
      rewrite E. split.
      * change (invoke func (args request) (kwargs request) s)
          with (lift (m_body func (args request) (kwargs request))
                  (log (HandlerCalled (m_name func) (args request)
                          (kwargs request)) s)).
        unfold lift. simpl.
        by destruct (m_body func (args request) (kwargs request) (world s)).
      * eapply maps_keeps_trace; [done|].
        change (invoke func (args request) (kwargs request) s)
          with (lift (m_body func (args request) (kwargs request))
                  (log (HandlerCalled (m_name func) (args request)
                          (kwargs request)) s)).
        unfold lift. simpl.
        destruct (m_body func (args request) (kwargs request) (world s)).
        apply lift_step_keeps_trace.
  - rewrite (safe_call_not_found _ _ debug s Hm). simpl.
    by rewrite app_nil_r.
Qed.

Lemma safe_call_run_trace request methods debug s :
  trace (run (safe_call request methods debug) s).1
  = trace s ++ handler_calls methods request.
Proof.
  destruct (safe_call_start request methods debug s) as [Ht Hk].
  unfold run. destruct (safe_call request methods debug s) as [s1 t1].
  simpl in *. by rewrite run_step_keeps_trace.
Qed.

(** The loop goes on to the next task after one that raised nothing
    outside [Exception] when started. *)
Lemma start_all_goes_on {A} (c : expr (State W) A)
    (rest : list (expr (State W) A)) s :
  (∀ exc, (c s).2 = Done (Raises exc) → isinstance exc Exception = true) →
  start_all (c :: rest) s
  = ((start_all rest (c s).1).1, (c s).2 :: (start_all rest (c s).1).2).
Proof.
  intros H. simpl. destruct (c s) as [s1 t]. simpl in *.
  destruct (start_all rest s1) as [s2 pool]. simpl.
  destruct t as [[a|exc]|k]; [done| |done].
  by rewrite (H exc eq_refl).
Qed.


Lemma safe_call_goes_on request methods debug s exc :
  well_behaved methods request →
  (safe_call request methods debug s).2 = Done (Raises exc) →
  isinstance exc Exception = true.
Proof.
  intros Hw H. pose proof (safe_call_responds request methods debug Hw s) as Hs.
  rewrite H in Hs. simpl in Hs. by destruct Hs.
Qed.

Lemma start_all_trace (requests : list Request) methods debug s :
  (∀ r, r ∈ requests → well_behaved methods r) →
  trace (start_all (map (λ r, safe_call r methods debug) requests) s).1
  = trace s ++ concat (map (handler_calls methods) requests)
  ∧ Forall keeps_trace
      (start_all (map (λ r, safe_call r methods debug) requests) s).2.
Proof.
  revert s. induction requests as [|r requests IH]; intros s Hw.
  - simpl. by rewrite app_nil_r.
  - cbn [map]. rewrite start_all_goes_on.
    2: { intros exc. apply safe_call_goes_on, Hw. by left. }
    destruct (safe_call_start r methods debug s) as [Ht Hk].
    destruct (IH (safe_call r methods debug s).1) as [IHt IHk].
    { intros r' Hin. apply Hw. by right. }
    simpl. split; [|by constructor].
    by rewrite IHt, Ht, <-app_assoc.
Qed.

Lemma resume_all_trace {A} (ws : list nat)
    (pool : list (step (State W) (outcome A))) s :
  Forall keeps_trace pool →
  trace (resume_all ws pool s).1 = trace s
  ∧ Forall keeps_trace (resume_all ws pool s).2.
Proof.
  revert pool s. induction ws as [|i ws IH]; intros pool s Hp; simpl; [done|].
  destruct (failed pool); [done|].
  destruct (pool !! i) as [[o|k]|] eqn:Hi; [by apply IH| |by apply IH].
  pose proof (Forall_lookup_1 _ _ _ _ Hp Hi s) as [Ht Hk].
  destruct (k s) as [s' t']. simpl in *.
  destruct (IH (<[i:=t']> pool) s') as [IHt IHk].
  { by apply Forall_insert. }
  split; [congruence|done].
Qed.

Lemma drain_trace {A} (pool : list (step (State W) (outcome A))) s :
  Forall keeps_trace pool → trace (drain pool s).1 = trace s.
Proof.
  intros Hp. revert s. induction Hp as [|t pool Ht Hp IH]; intros s; simpl;
    [done|].
  pose proof (run_step_keeps_trace t s Ht) as H1.
  destruct (run_step t s) as [s1 [a|exc]]; simpl in *; [|done].
  specialize (IH s1). destruct (drain pool s1) as [s2 r]. simpl in *.
  congruence.
Qed.

Lemma gather_trace (requests : list Request) methods debug s :
  (∀ r, r ∈ requests → well_behaved methods r) →
  trace (gather (map (λ r, safe_call r methods debug) requests) s).1
  = trace s ++ concat (map (handler_calls methods) requests).
Proof.
  intros Hw. unfold gather.
  destruct (start_all_trace requests methods debug (set_wakeups [] s) Hw)
    as [H1 Hk1].
  destruct (start_all (map (λ r, safe_call r methods debug) requests)
              (set_wakeups [] s)) as [s1 pool]. simpl in *.
  destruct (resume_all_trace (wakeups s) pool s1 Hk1) as [H2 Hk2].
  destruct (resume_all (wakeups s) pool s1) as [s2 pool']. simpl in *.
  destruct (failed pool').
  - simpl. congruence.
  - pose proof (drain_trace pool' s2 Hk2) as H3.
    destruct (drain pool' s2) as [s3 r]. simpl in *. congruence.
Qed.
End TraceTheory.

(** X5. [safe_call] calls at most one handler, at most once: awaited on
    any state it adds to the trace the call of the handler of the
    request, when the method is found, no keyword is named [method] and
    the arguments bind, and nothing otherwise, whether or not the request
    is a notification and whatever the handler does. *)
Theorem safe_call_calls_one_handler {W} (request : Request)
    (methods : Methods W) (debug : bool) (s : State W) :
  trace (run (safe_call request methods debug) s).1
  = trace s ++ handler_calls methods request
  ∧ length (handler_calls methods request) ≤ 1.
Proof.
  split; [apply safe_call_run_trace|].
  unfold handler_calls. repeat case_match; simpl; lia.
Qed.

Lemma classify_single_response request debug o response :
  classify request debug o = Returns response →
  single_response response = true.
Proof.
  unfold classify. destruct (is_notification request); [by intros [= <-]|].
  destruct o as [result|exc]; [by intros [= <-]|].
  repeat case_match; by intros [= <-].
Qed.

(** X6. [safe_call] answers with a response of its own five classes:
    never with a [BatchResponse], an [InvalidJSONResponse] or an
    [InvalidJSONRPCResponse]. *)
Theorem safe_call_single_response {W} (request : Request)
    (methods : Methods W) (debug : bool) :
  coro_all (λ o, ∀ response, o = Returns response →
                 single_response response = true)
    (safe_call request methods debug).
Proof.
  apply safe_call_all, coro_all_true. intros o response.
  apply classify_single_response.
Qed.

(** ** Further properties of [call_requests] *)

Lemma resume_all_nil {W A} (ws : list nat) (s : State W) :
  resume_all (A:=A) ws [] s = (s, []).
Proof. induction ws as [|i ws IH]; simpl; [done|]. apply IH. Qed.

Lemma gather_nil {W A} (s : State W) :
  gather (A:=A) [] s = (set_wakeups [] s, Done (Returns [])).
Proof. unfold gather. simpl. by rewrite resume_all_nil. Qed.

(** X7. One request is not wrapped: [call_requests] on a single request
    is [safe_call] on it, the same state and the same outcome, and its
    response is never a [BatchResponse]. *)
Theorem call_requests_single {W} (request : Request) (methods : Methods W)
    (debug : bool) (s : State W) :
  run (call_requests (inl request) methods debug) s
  = run (safe_call request methods debug) s
  ∧ ∀ responses,
      (run (call_requests (inl request) methods debug) s).2
      ≠ Returns (BatchResponse responses).
Proof.
  assert (run (call_requests (inl request) methods debug) s
          = run (safe_call request methods debug) s) as Heq.
  { rewrite (coro_maps_run _ _ _ s (call_requests_one request methods debug)).
    by destruct (run (safe_call request methods debug) s). }
  split; [done|]. intros responses. rewrite Heq.
  rewrite (coro_maps_run _ _ _ s (safe_call_classifies request methods debug)).
  simpl. intros H. by apply classify_single_response in H.
Qed.

(** X8. The empty batch: [call_requests] on no request ends at once with
    the empty [BatchResponse]; nothing is called and the world is as it
    was. *)
Theorem call_requests_empty_batch {W} (methods : Methods W) (debug : bool)
    (s : State W) :
  ∃ s', call_requests (inr []) methods debug s
        = (s', Done (Returns (BatchResponse [])))
        ∧ world s' = world s ∧ trace s' = trace s.
Proof.
  exists (set_wakeups [] s). split; [|done].
  by rewrite (call_requests_many [] methods debug s _ _ (gather_nil s)).
Qed.

Lemma Forall2_replicate_r {A B} (xs : list A) (ys : list B) (y : B) :
  Forall2 (λ _ y', y' = y) xs ys → ys = replicate (length xs) y.
Proof. induction 1; simpl; congruence. Qed.

(** X9. A batch of notifications only: [call_requests] returns, on every
    state and whatever the handlers do, the [BatchResponse] of one
    [NotificationResponse] for each request; it is [call_requests]'
    caller that drops them. *)
Theorem call_requests_all_notifications {W} (requests : list Request)
    (methods : Methods W) (debug : bool) (s : State W) :
  Forall (λ r, is_notification r = true) requests →
  (run (call_requests (inr requests) methods debug) s).2
  = Returns (BatchResponse
               (replicate (length requests) NotificationResponse)).
Proof.
  intros Hn.
  destruct (gather_spec (map (λ r, safe_call r methods debug) requests) s)
    as (s' & r & Hg & Hr).
  unfold run. rewrite (call_requests_many _ _ _ _ _ _ Hg). simpl.
  destruct r as [results|exc].
  - do 2 f_equal. apply Forall2_fmap_l in Hr.
    apply Forall2_replicate_r. clear Hg.
    induction Hr as [|r x rs xs Hrx Hr IH]; [constructor|].
    apply Forall_cons in Hn as [Hr1 Hn]. constructor; [|by apply IH].
    apply safe_call_can_finish_answers in Hrx.
    unfold answers in Hrx. by rewrite Hr1 in Hrx.
  - destruct Hr as (c & Hin & Hc).
    apply list_elem_of_fmap in Hin as (r & -> & Hin).
    assert (well_behaved methods r) as Hw.
    { left. by apply (proj1 (Forall_forall _ _) Hn). }
    apply (proj1 (coro_all_can_finish _ _)
             (safe_call_responds r methods debug Hw)) in Hc
      as [response [=]].
Qed.

Lemma call_requests_all_notifications_witness :
  (run (call_requests (inr [Sample.request "a" None; Sample.request "quit" None;
                            Sample.request "missing" None])
          Sample.registry false) (Sample.initial [0])).2
  = Returns (BatchResponse [NotificationResponse; NotificationResponse;
                            NotificationResponse]).
Proof.
  apply (call_requests_all_notifications
           [Sample.request "a" None; Sample.request "quit" None;
            Sample.request "missing" None] Sample.registry false
           (Sample.initial [0])).
  repeat constructor.
Defined.

(** X10. In a batch where no handler raises outside [Exception], unless
    for a notification, every request whose method is found, with no
    keyword named [method], and whose arguments bind has its handler
    called, once, and the calls are made in the order of the requests; no
    other handler is called. This holds for every order in which the
    event loop wakes the handlers up. *)
Theorem call_requests_calls_each_handler_once {W} (requests : list Request)
    (methods : Methods W) (debug : bool) (s : State W) :
  (∀ r, r ∈ requests → well_behaved methods r) →
  trace (run (call_requests (inr requests) methods debug) s).1
  = trace s ++ concat (map (handler_calls methods) requests).
Proof.
  intros Hw.
  destruct (gather_spec (map (λ r, safe_call r methods debug) requests) s)
    as (s' & r & Hg & _).
  unfold run. rewrite (call_requests_many _ _ _ _ _ _ Hg). simpl.
  pose proof (gather_trace requests methods debug s Hw) as Ht.
  by rewrite Hg in Ht.
Qed.

Lemma call_requests_calls_each_handler_once_witness :
  trace (run (call_requests
                (inr [ Sample.request "a" (Some (JNumber 1));
                       Sample.request "quit" None;
                       {| method := "a"; args := [];
                          kwargs := [("method", JNull)];
                          id := Some (JNumber 2) |};
                       Sample.request "b" (Some (JNumber 3)) ])
                Sample.registry false) (Sample.initial [3; 0])).1
  = [ HandlerCalled "a" [] []; HandlerCalled "failing" [] [];
      HandlerCalled "b" [] [] ].
Proof.
  apply (call_requests_calls_each_handler_once
           [ Sample.request "a" (Some (JNumber 1));
             Sample.request "quit" None;
             {| method := "a"; args := [];
                kwargs := [("method", JNull)]; id := Some (JNumber 2) |};
             Sample.request "b" (Some (JNumber 3)) ]
           Sample.registry false (Sample.initial [3; 0])).
  intros r Hin. repeat apply elem_of_cons in Hin as [->|Hin].
  - right. intros func Hm. vm_compute in Hm. injection Hm as <-.
    intros w. simpl. intros w' exc. discriminate.
  - by left.
  - right. intros func Hm. vm_compute in Hm. injection Hm as <-.
    intros w. simpl. intros w' exc. discriminate.
  - right. intros func Hm. vm_compute in Hm. injection Hm as <-.
    intros w. simpl. intros w' exc. discriminate.
  - by apply elem_of_nil in Hin.
Defined.

Section InTurn.
Context {W : Type}.
Implicit Types (s : State W) (methods : Methods W) (request : Request).





End InTurn.



(** ** Further properties of [dispatch_pure] and [dispatch] *)

(** The body of [dispatch], statement by statement, up to the call of
    [dispatch_pure] and, once [H] tells how that ends, to the end. *)
Ltac dispatch_body methods basic_logging H :=
  unfold dispatch, def, seq, assign;
  destruct methods, basic_logging; simpl in *;
  repeat (rewrite run_bind; simpl);
  rewrite H; simpl;
  by repeat (rewrite run_bind; simpl).

(** X12. On a text that parses and validates, [dispatch_pure] is
    [call_requests] on the requests [create_requests] builds from the
    validated value with the [context] and [convert_camel_case] given:
    the same outcome and the same effects, after the requests were
    built. *)
Theorem dispatch_pure_valid_input {W Schema Ctx}
    (deserialize : string → outcome json)
    (validate : json → Schema → outcome json) (schema : Schema)
    (create_requests : json → Ctx → bool → Request + list Request)
    (text : string) (methods : Methods W) (context : Ctx)
    (convert_camel_case debug : bool) (parsed deserialized : json)
    (s : State W) :
  deserialize text = Returns parsed →
  validate parsed schema = Returns deserialized →
  run (dispatch_pure deserialize validate schema create_requests
         text methods context convert_camel_case debug) s
  = run (call_requests (create_requests deserialized context convert_camel_case)
           methods debug) (log (RequestsCreated deserialized) s).
Proof.
  intros Hd Hv.
  rewrite (coro_maps_run _ _ _ s
             (dispatch_pure_valid deserialize validate schema create_requests
                text methods context convert_camel_case debug
                parsed deserialized Hd Hv)).
  unfold run.
  by destruct (call_requests _ methods debug (log (RequestsCreated deserialized) s))
    as [s1 t1]; destruct (run_step t1 s1).
Qed.

Lemma dispatch_pure_valid_input_witness :
  run (dispatch_pure Sample.deserialize Sample.validate tt Sample.create_requests
         "ping" Sample.registry tt false false) (Sample.initial [])
  = run (call_requests (inl (Sample.request "ping" (Some (JNumber 1))))
           Sample.registry false)
      (log (RequestsCreated (JObject [("method", JString "ping")]))
         (Sample.initial [])).
Proof.
  apply (dispatch_pure_valid_input Sample.deserialize Sample.validate tt
           Sample.create_requests "ping" Sample.registry tt false false
           (JObject [("method", JString "ping")])
           (JObject [("method", JString "ping")]) (Sample.initial []));
    vm_compute; reflexivity.
Defined.

(** X13. An exception raised in the [try] block of [dispatch_pure], by
    the parser or by the validator, goes by its class: a
    [JSONDecodeError] gives [InvalidJSONResponse], otherwise a
    [ValidationError] gives [InvalidJSONRPCResponse], and any other
    exception leaves [dispatch_pure]. In each case no request was built
    and no handler called. *)
Theorem dispatch_pure_try_block {W Schema Ctx}
    (deserialize : string → outcome json)
    (validate : json → Schema → outcome json) (schema : Schema)
    (create_requests : json → Ctx → bool → Request + list Request)
    (text : string) (methods : Methods W) (context : Ctx)
    (convert_camel_case debug : bool) (exc : exn) (s : State W) :
  (deserialize text = Raises exc
   ∨ ∃ parsed, deserialize text = Returns parsed
               ∧ validate parsed schema = Raises exc) →
  dispatch_pure deserialize validate schema create_requests
    text methods context convert_camel_case debug s
  = (s, Done (classify_input debug exc)).
Proof.
  unfold classify_input. intros [Hd|(parsed & Hd & Hv)]; try_block Hd.
  - by destruct (isinstance exc JSONDecodeError),
      (isinstance exc ValidationError).
  - rewrite Hv. simpl.
    by destruct (isinstance exc JSONDecodeError),
      (isinstance exc ValidationError).
Qed.

Lemma dispatch_pure_try_block_witness :
  dispatch_pure Sample.deserialize_deep Sample.validate tt Sample.create_requests
    "[[[[" Sample.registry tt false false (Sample.initial [])
  = (Sample.initial [],
     Done (Raises (Exn Sample.RecursionError "maximum recursion depth exceeded"))).
Proof.
  apply (dispatch_pure_try_block Sample.deserialize_deep Sample.validate tt
           Sample.create_requests "[[[[" Sample.registry tt false false
           (Exn Sample.RecursionError "maximum recursion depth exceeded")
           (Sample.initial [])).
  left. reflexivity.
Defined.

(** X14. When [dispatch_pure] returns a response, [dispatch] returns that
    response, after logging the request before the dispatch and [str] of
    the response after it; with [basic_logging] the handlers added at the
    start are removed at the end. *)
Theorem dispatch_returns {W Schema Ctx}
    (deserialize : string → outcome json)
    (validate : json → Schema → outcome json) (schema : Schema)
    (create_requests : json → Ctx → bool → Request + list Request)
    (global_methods : Methods W) (response_str : Response → string)
    (request : string) (methods : option (Methods W))
    (basic_logging convert_camel_case : bool) (context : Ctx)
    (debug trim_log_values : bool) (s s1 : State W) (response : Response) :
  run (dispatch_pure deserialize validate schema create_requests request
         (default global_methods methods) context convert_camel_case debug)
    (log (RequestLogged request trim_log_values)
       (if basic_logging then log HandlersAdded s else s))
  = (s1, Returns response) →
  run (dispatch deserialize validate schema create_requests global_methods
         response_str request methods
         basic_logging convert_camel_case context debug trim_log_values) s
  = (let s2 := log (ResponseLogged (response_str response) trim_log_values) s1 in
     if basic_logging then log HandlersRemoved s2 else s2,
     Returns response).
Proof. intros H. dispatch_body methods basic_logging H. Qed.

Lemma dispatch_returns_witness :
  run (dispatch Sample.deserialize Sample.validate tt Sample.create_requests
         Sample.registry Sample.response_str "ping" None
         true false tt false false) (Sample.initial [])
  = ({| world := ["ping"]; wakeups := [];
        trace := [ HandlersAdded; RequestLogged "ping" false;
                   RequestsCreated (JObject [("method", JString "ping")]);
                   HandlerCalled "ping" [] [];
                   ResponseLogged "SuccessResponse" false; HandlersRemoved ] |},
     Returns (SuccessResponse (JString "pong") (Some (JNumber 1)))).
Proof.
  apply (dispatch_returns Sample.deserialize Sample.validate tt
           Sample.create_requests Sample.registry Sample.response_str
           "ping" None true false tt false false (Sample.initial [])
           {| world := ["ping"]; wakeups := [];
              trace := [ HandlersAdded; RequestLogged "ping" false;
                         RequestsCreated (JObject [("method", JString "ping")]);
                         HandlerCalled "ping" [] [] ] |}
           (SuccessResponse (JString "pong") (Some (JNumber 1)))).
  vm_compute. reflexivity.
Defined.

(** X15. When [dispatch_pure] raises, [dispatch] raises the same
    exception where [dispatch_pure] left off: no response is logged, and
    the handlers added for [basic_logging] are not removed. *)
Theorem dispatch_raises_without_cleanup {W Schema Ctx}
    (deserialize : string → outcome json)
    (validate : json → Schema → outcome json) (schema : Schema)
    (create_requests : json → Ctx → bool → Request + list Request)
    (global_methods : Methods W) (response_str : Response → string)
    (request : string) (methods : option (Methods W))
    (basic_logging convert_camel_case : bool) (context : Ctx)
    (debug trim_log_values : bool) (s s1 : State W) (exc : exn) :
  run (dispatch_pure deserialize validate schema create_requests request
         (default global_methods methods) context convert_camel_case debug)
    (log (RequestLogged request trim_log_values)
       (if basic_logging then log HandlersAdded s else s))
  = (s1, Raises exc) →
  run (dispatch deserialize validate schema create_requests global_methods
         response_str request methods
         basic_logging convert_camel_case context debug trim_log_values) s
  = (s1, Raises exc).
Proof. intros H. dispatch_body methods basic_logging H. Qed.

Lemma dispatch_raises_without_cleanup_witness :
  run (dispatch Sample.deserialize Sample.validate tt Sample.create_requests
         Sample.registry Sample.response_str "quit" None
         true false tt false false) (Sample.initial [])
  = ({| world := []; wakeups := [];
        trace := [ HandlersAdded; RequestLogged "quit" false;
                   RequestsCreated (JObject [("method", JString "quit")]);
                   HandlerCalled "failing" [] [] ] |},
     Raises (Exn SystemExit "failed")).
Proof.
  apply (dispatch_raises_without_cleanup Sample.deserialize Sample.validate tt
           Sample.create_requests Sample.registry Sample.response_str
           "quit" None true false tt false false (Sample.initial [])).
  vm_compute. reflexivity.
Defined.

(** X16. Through [dispatch], a text for which the parser raises
    [JSONDecodeError] is answered by [InvalidJSONResponse] with [str] of
    that exception, whatever the registry: [dispatch] returns, and what
    it did is to log the request and the response, between adding and
    removing the handlers with [basic_logging]. *)
Theorem dispatch_invalid_json {W Schema Ctx}
    (deserialize : string → outcome json)
    (validate : json → Schema → outcome json) (schema : Schema)
    (create_requests : json → Ctx → bool → Request + list Request)
    (global_methods : Methods W) (response_str : Response → string)
    (request : string) (methods : option (Methods W))
    (basic_logging convert_camel_case : bool) (context : Ctx)
    (debug trim_log_values : bool) (s : State W) (exc : exn) :
  deserialize request = Raises exc →
  isinstance exc JSONDecodeError = true →
  let response := InvalidJSONResponse (exc_str exc) debug in
  let s1 := log (RequestLogged request trim_log_values)
              (if basic_logging then log HandlersAdded s else s) in
  let s2 := log (ResponseLogged (response_str response) trim_log_values) s1 in
  run (dispatch deserialize validate schema create_requests global_methods
         response_str request methods
         basic_logging convert_camel_case context debug trim_log_values) s
  = (if basic_logging then log HandlersRemoved s2 else s2, Returns response).
Proof.
  intros Hd He.
  assert (∀ (methods' : Methods W) (s0 : State W),
            run (dispatch_pure deserialize validate schema create_requests
                   request methods' context convert_camel_case debug) s0
            = (s0, Returns (InvalidJSONResponse (exc_str exc) debug))) as H.
  { intros methods' s0. unfold run. try_block Hd. by rewrite He. }
  dispatch_body methods basic_logging H.
Qed.

Lemma dispatch_invalid_json_witness :
  run (dispatch Sample.deserialize Sample.validate tt Sample.create_requests
         Sample.registry Sample.response_str "[1" None
         false false tt true false) (Sample.initial [])
  = ({| world := []; wakeups := [];
        trace := [ RequestLogged "[1" false;
                   ResponseLogged "InvalidJSONResponse" false ] |},
     Returns (InvalidJSONResponse
                "Expecting ',' delimiter: line 1 column 3 (char 2)" true)).
Proof.
  apply (dispatch_invalid_json Sample.deserialize Sample.validate tt
           Sample.create_requests Sample.registry Sample.response_str
           "[1" None false false tt true false (Sample.initial [])
           (Exn JSONDecodeError "Expecting ',' delimiter: line 1 column 3 (char 2)"));
    vm_compute; reflexivity.
Defined.

Section BatchLost.
Context {W : Type}.
Implicit Types (s : State W) (methods : Methods W).




End BatchLost.



(** X18. A keyword argument named [method] never reaches the handler: it
    clashes with the first parameter of [call], so the call of line 42
    raises [TypeError] before [validate_args] and the handler are
    reached, whatever the signature of the handler. [safe_call] is done
    at once, the state as it was, with [InvalidParamsResponse] carrying
    the [id] of the request and the message of that [TypeError], or with
    [NotificationResponse] for a notification. *)
Theorem safe_call_keyword_method {W} (request : Request) (methods : Methods W)
    (debug : bool) (func : Method W) (s : State W) :
  items methods !! method request = Some func →
  names_method (kwargs request) = true →
  safe_call request methods debug s
  = (s, Done (Returns
                (if is_notification request then NotificationResponse
                 else InvalidParamsResponse (id request)
                        "call() got multiple values for argument 'method'"
                        debug))).
Proof.
  intros Hm Hk. rewrite (safe_call_multiple_values _ _ _ _ _ Hm Hk).
  unfold classify. by destruct (is_notification request).
Qed.

Lemma safe_call_keyword_method_witness :
  Sample.echo.(m_bind) [] [("method", JString "hello")] = None
  ∧ safe_call {| method := "echo"; args := [];
                 kwargs := [("method", JString "hello")];
                 id := Some (JNumber 1) |} Sample.echo_registry false
      (Sample.initial [])
    = (Sample.initial [],
       Done (Returns (InvalidParamsResponse (Some (JNumber 1))
                        "call() got multiple values for argument 'method'"
                        false))).
Proof.
  split; [reflexivity|].
  apply (safe_call_keyword_method
           {| method := "echo"; args := [];
              kwargs := [("method", JString "hello")];
              id := Some (JNumber 1) |} Sample.echo_registry false
           Sample.echo (Sample.initial []));
    vm_compute; reflexivity.
Defined.


